(** * 3d_prime_walk: the curve generators of [data-scripts/]

    A shallow embedding of the four point generators
    ([generate_lissajous], [lorenz_attractor], [spiral],
    [generate_torus_knot]) and of the entry points of their scripts.

    Python numbers are modelled behind one arithmetic interface, [Arith],
    with two instances:
    - [Exact.RArith]: exact real arithmetic (the mathematics the formulas
      of the scripts denote);
    - [Binary64.FArith]: IEEE 754 binary64, the arithmetic of CPython's
      [float], over the primitive floats; the C library's [sin] and [cos]
      are parameters ([Libm]).

    Exceptions are values of an error monad. *)

From Stdlib Require Import Floats String.
From Stdlib Require Import ZArith List Bool Lia.
From Stdlib Require Import Reals Lra.
Import ListNotations.

Set Implicit Arguments.

(** ** Exceptions *)

(** The exceptions the arithmetic of the scripts can raise. *)
Inductive exn : Type :=
| ZeroDivisionError
| ValueError        (* "math domain error" *)
| OverflowError.    (* "int too large to convert to float" *)

Inductive result (A : Type) : Type :=
| OK (a : A)
| Raise (e : exn).

Arguments OK {A} a.
Arguments Raise {A} e.

Definition bind {A B : Type} (r : result A) (k : A -> result B) : result B :=
  match r with
  | OK a => k a
  | Raise e => Raise e
  end.

Declare Scope py_scope.
Delimit Scope py_scope with py.
Notation "x <- e ;; k" := (bind e (fun x => k))
  (at level 61, e at next level, right associativity) : py_scope.
Open Scope py_scope.
Open Scope Z_scope.

(** ** The loop [for i in range(n)] *)

(** [range(n)]: the integers [0, 1, ..., n-1]; empty when [n <= 0]. *)
Definition range (n : Z) : list Z := map Z.of_nat (seq 0 (Z.to_nat n)).

(** A [for] loop over a list: the body transforms the loop state and may
    raise, which ends the loop. *)
Fixpoint for_each {S : Type} (xs : list Z) (body : Z -> S -> result S) (s : S)
  : result S :=
  match xs with
  | [] => OK s
  | x :: xs' => s' <- body x s ;; for_each xs' body s'
  end.

(** The same without exceptions. *)
Fixpoint for_each_pure {S : Type} (xs : list Z) (body : Z -> S -> S) (s : S) : S :=
  match xs with
  | [] => s
  | x :: xs' => for_each_pure xs' body (body x s)
  end.

(** [mapM]: the index-wise reading of a loop that appends one element per
    iteration. *)
Fixpoint mapM {A B : Type} (f : A -> result B) (xs : list A) : result (list B) :=
  match xs with
  | [] => OK []
  | x :: xs' => y <- f x ;; ys <- mapM f xs' ;; OK (y :: ys)
  end.

(** ** Integers *)

(** [x // y] on [int]: floor division. *)
Definition floordiv (x y : Z) : result Z :=
  if y =? 0 then Raise ZeroDivisionError else OK (x / y).

(** [math.gcd]. *)
Definition gcd (a b : Z) : Z := Z.gcd a b.

(** The local helper of [generate_lissajous]:
    [def lcm(a, b): return abs(a * b) // gcd(a, b)]. *)
Definition lcm (a b : Z) : result Z := floordiv (Z.abs (a * b)) (gcd a b).

(** The Euclidean algorithm ([while b: a, b = b, a % b]) with the absolute
    value of the last non-zero remainder as its result; [fuel] bounds the
    number of rounds. *)
Fixpoint euclid (fuel : nat) (a b : Z) : Z :=
  match fuel with
  | O => Z.abs a
  | S fuel' => if b =? 0 then Z.abs a else euclid fuel' b (a mod b)
  end.

Definition euclid_gcd (a b : Z) : Z := euclid (S (Z.to_nat (Z.abs b))) a b.

(** ** The arithmetic interface *)

Class Arith (F : Type) : Type := {
  (** the decimal literal [m / 10^k]: [lit 1 1] is [0.1], [lit 2 0] is [2] *)
  lit : Z -> nat -> F;
  (** the conversion of an [int] operand of a mixed operation *)
  of_int : Z -> result F;
  (** [i / n] on two [int]s *)
  int_truediv : Z -> Z -> result F;
  neg : F -> F;
  add : F -> F -> F;
  sub : F -> F -> F;
  mul : F -> F -> F;
  (** the quotient, where the divisor is known not to be zero *)
  fdiv : F -> F -> F;
  is_zero : F -> bool;
  math_pi : F;
  math_sqrt : F -> result F;
  math_sin : F -> result F;
  math_cos : F -> result F
}.

(** [x / y] on [float]. *)
Definition truediv {F} `{Arith F} (x y : F) : result F :=
  if is_zero y then Raise ZeroDivisionError else OK (fdiv x y).

(** ** The generators *)

Section Generators.

Context {F : Type} `{Arith F}.

Definition point : Type := (F * F * F)%type.

(** *** generate_lissajous.py *)

(** [period = lcm(lcm(a, b), c); t_max = 2 * math.pi * period] *)
Definition lissajous_t_max (a b c : Z) : result F :=
  ab <- lcm a b ;;
  period <- lcm ab c ;;
  fperiod <- of_int period ;;
  OK (mul (mul (lit 2 0) math_pi) fperiod).

(** The point of iteration [i]. *)
Definition lissajous_point (a b c : Z) (phase_x phase_y phase_z : F)
    (amp_x amp_y amp_z : F) (steps : Z) (t_max : F) (i : Z) : result point :=
  q <- int_truediv i steps ;;
  let t := mul q t_max in
  fa <- of_int a ;;
  sx <- math_sin (add (mul fa t) phase_x) ;;
  let x := mul amp_x sx in
  fb <- of_int b ;;
  sy <- math_sin (add (mul fb t) phase_y) ;;
  let y := mul amp_y sy in
  fc <- of_int c ;;
  sz <- math_sin (add (mul fc t) phase_z) ;;
  let z := mul amp_z sz in
  OK (x, y, z).

Definition generate_lissajous (a b c : Z) (phase_x phase_y phase_z : F)
    (amp_x amp_y amp_z : F) (steps : Z) : result (list point) :=
  let coordinates := [] in
  t_max <- lissajous_t_max a b c ;;
  for_each (range steps)
    (fun i coordinates =>
       p <- lissajous_point a b c phase_x phase_y phase_z
              amp_x amp_y amp_z steps t_max i ;;
       OK (coordinates ++ [p]))
    coordinates.

(** *** generate_lorenz.py *)

Definition sigma : F := lit 10 0.
Definition rho : F := lit 28 0.
(** [8.0 / 3.0]: a quotient of two literals, the divisor is not zero. *)
Definition beta : F := fdiv (lit 8 0) (lit 3 0).
Definition scale : F := lit 10 0.

(** The state of the loop: [coordinates], [x], [y], [z]. *)
Definition lorenz_state : Type := (list point * F * F * F)%type.

Definition lorenz_init : lorenz_state := ([], lit 1 1, lit 0 0, lit 0 0).

Definition lorenz_body (dt : F) (st : lorenz_state) : lorenz_state :=
  let '(coordinates, x, y, z) := st in
  let coordinates := coordinates ++ [(mul x scale, mul y scale, mul z scale)] in
  let dx_dt := mul sigma (sub y x) in
  let dy_dt := sub (mul x (sub rho z)) y in
  let dz_dt := sub (mul x y) (mul beta z) in
  let x := add x (mul dx_dt dt) in
  let y := add y (mul dy_dt dt) in
  let z := add z (mul dz_dt dt) in
  (coordinates, x, y, z).

Definition lorenz_attractor (steps : Z) (dt : F) : list point :=
  let '(coordinates, _, _, _) :=
    for_each_pure (range steps) (fun _ => lorenz_body dt) lorenz_init in
  coordinates.

(** *** generate_spiral_sphere.py *)

(** The state of the loop: [coordinates], [y], [turn_angle]. *)
Definition spiral_state : Type := (list point * F * F)%type.

Definition spiral_body (radius y_step turn_angle_step : F) (st : spiral_state)
  : result spiral_state :=
  let '(coordinates, y, turn_angle) := st in
  y_radius <- math_sqrt (sub (mul radius radius) (mul y y)) ;;
  c <- math_cos turn_angle ;;
  let x := mul c y_radius in
  s <- math_sin turn_angle ;;
  let z := mul s y_radius in
  OK (coordinates ++ [(x, y, z)], add y y_step, add turn_angle turn_angle_step).

Definition spiral (steps : Z) (radius turns : F) : result (list point) :=
  let coordinates := [] in
  let y := neg radius in
  fsteps <- of_int steps ;;
  y_step <- truediv (mul (lit 2 0) radius) fsteps ;;
  let turn_angle := lit 0 0 in
  fsteps' <- of_int steps ;;
  turn_angle_step <- truediv (mul (mul turns (lit 2 0)) math_pi) fsteps' ;;
  st <- for_each (range steps)
          (fun _ => spiral_body radius y_step turn_angle_step)
          (coordinates, y, turn_angle) ;;
  OK (fst (fst st)).

(** *** generate_torus_knot.py *)

(** [t_max = 2 * math.pi * max(p, q)] *)
Definition torus_t_max (p q : Z) : result F :=
  fm <- of_int (Z.max p q) ;;
  OK (mul (mul (lit 2 0) math_pi) fm).

Definition torus_point (p q : Z) (R r : F) (steps : Z) (t_max : F) (i : Z)
  : result point :=
  d <- int_truediv i steps ;;
  let t := mul d t_max in
  fp <- of_int p ;;
  cp <- math_cos (mul fp t) ;;
  fq <- of_int q ;;
  cq <- math_cos (mul fq t) ;;
  let x := mul (add R (mul r cp)) cq in
  fp <- of_int p ;;
  cp <- math_cos (mul fp t) ;;
  fq <- of_int q ;;
  sq <- math_sin (mul fq t) ;;
  let y := mul (add R (mul r cp)) sq in
  fp <- of_int p ;;
  sp <- math_sin (mul fp t) ;;
  let z := mul r sp in
  OK (x, y, z).

Definition generate_torus_knot (p q : Z) (R r : F) (steps : Z)
  : result (list point) :=
  let coordinates := [] in
  t_max <- torus_t_max p q ;;
  for_each (range steps)
    (fun i coordinates =>
       pt <- torus_point p q R r steps t_max i ;;
       OK (coordinates ++ [pt]))
    coordinates.

End Generators.

(** ** The entry points of the scripts *)

(** What a run of a script's [main] ends in (the progress messages on
    stdout are left out). *)
Inductive outcome (F : Type) : Type :=
| ParserError (msg : string)
    (* [parser.error(msg)]: usage and [msg] on stderr, exit status 2;
       the generator has not been called and no file has been opened *)
| Uncaught (e : exn)
    (* an exception of the generator; no file has been opened *)
| Written (output : string) (coordinates : list (F * F * F)).
    (* the file [output] holds one line per point, in order *)

Arguments ParserError {F} msg.
Arguments Uncaught {F} e.
Arguments Written {F} output coordinates.

(** The parsed command line of generate_lissajous.py. *)
Record lissajous_args (F : Type) : Type := {
  la_a : Z; la_b : Z; la_c : Z;
  la_phase_x : F; la_phase_y : F; la_phase_z : F;
  la_amp : option F;
  la_amp_x : F; la_amp_y : F; la_amp_z : F;
  la_steps : Z;
  la_output : string
}.

(** The parsed command line of generate_torus_knot.py. *)
Record torus_args (F : Type) : Type := {
  ta_p : Z; ta_q : Z;
  ta_R : F; ta_r : F;
  ta_steps : Z;
  ta_output : string
}.

Section Mains.

Context {F : Type} `{Arith F}.

Definition write_file (output : string) (r : result (list (@point F)))
  : outcome F :=
  match r with
  | OK coordinates => Written output coordinates
  | Raise e => Uncaught e
  end.

Definition lissajous_main (args : lissajous_args F) : outcome F :=
  let '(amp_x, amp_y, amp_z) :=
    match la_amp args with
    | Some amp => (amp, amp, amp)
    | None => (la_amp_x args, la_amp_y args, la_amp_z args)
    end in
  if (la_a args <=? 0) || (la_b args <=? 0) || (la_c args <=? 0) then
    ParserError "Frequencies (a, b, c) must be positive integers"
  else
    write_file (la_output args)
      (generate_lissajous (la_a args) (la_b args) (la_c args)
         (la_phase_x args) (la_phase_y args) (la_phase_z args)
         amp_x amp_y amp_z (la_steps args)).

Definition torus_knot_main (args : torus_args F) : outcome F :=
  if (ta_p args <=? 0) || (ta_q args <=? 0) then
    ParserError "p and q must be positive integers"
  else
    write_file (ta_output args)
      (generate_torus_knot (ta_p args) (ta_q args) (ta_R args) (ta_r args)
         (ta_steps args)).



End Mains.

(** ** Exact real arithmetic *)

Module Exact.

#[export] Instance RArith : Arith R := {|
  lit m k := (IZR m / IZR (10 ^ Z.of_nat k))%R;
  of_int z := OK (IZR z);
  int_truediv i n :=
    if n =? 0 then Raise ZeroDivisionError else OK (IZR i / IZR n)%R;
  neg := Ropp;
  add := Rplus;
  sub := Rminus;
  mul := Rmult;
  fdiv := Rdiv;
  is_zero x := if Req_dec_T x 0 then true else false;
  math_pi := PI;
  (* a negative number has no real square root: "math domain error" *)
  math_sqrt x := if Rlt_dec x 0 then Raise ValueError else OK (sqrt x);
  math_sin x := OK (sin x);
  math_cos x := OK (cos x)
|}.

End Exact.

(** ** IEEE 754 binary64 *)

Module Binary64.

(** The C library functions behind [math.sin] and [math.cos]. *)
Record Libm : Type := {
  libm_sin : float -> float;
  libm_cos : float -> float
}.

(** An [int] as an unrounded binary number. *)
Definition Z2SF (z : Z) : spec_float :=
  match z with
  | Z0 => S754_zero false
  | Zpos p => S754_finite false p 0
  | Zneg p => S754_finite true p 0
  end.

(** The [float] nearest to an [int] (ties to even); infinite when the
    [int] is out of range. *)
Definition float_of_Z (z : Z) : float :=
  SF2Prim (binary_normalize prec emax z 0 false).

(** [float(z)] raises when [z] is out of range. *)
Definition float_of_int (z : Z) : result float :=
  let f := float_of_Z z in
  if is_infinity f then Raise OverflowError else OK f.

(** [int / int]: the correctly rounded quotient. *)
Definition float_int_truediv (i n : Z) : result float :=
  if n =? 0 then Raise ZeroDivisionError
  else
    let q := SF2Prim (SFdiv prec emax (Z2SF i) (Z2SF n)) in
    if is_infinity q then Raise OverflowError else OK q.

(** The wrapper of CPython's [math] module around a C function of one
    argument ([math_1] with [can_overflow = 0]): a NaN result of a number,
    or an infinite result of a finite number, is a "math domain error". *)
Definition math_1 (func : float -> float) (x : float) : result float :=
  let r := func x in
  if is_nan r && negb (is_nan x) then Raise ValueError
  else if is_infinity r && is_finite x then Raise ValueError
  else OK r.

Definition FArith (L : Libm) : Arith float := {|
  lit m k := (float_of_Z m / float_of_Z (10 ^ Z.of_nat k))%float;
  of_int := float_of_int;
  int_truediv := float_int_truediv;
  neg := PrimFloat.opp;
  add := PrimFloat.add;
  sub := PrimFloat.sub;
  mul := PrimFloat.mul;
  fdiv := PrimFloat.div;
  is_zero y := (y =? 0)%float;
  math_pi := 0x1.921fb54442d18p+1%float;
  math_sqrt := math_1 PrimFloat.sqrt;
  math_sin := math_1 (libm_sin L);
  math_cos := math_1 (libm_cos L)
|}.

End Binary64.


(** ** Closed forms *)

(** What the loops compute, iteration by iteration: the formulas the
    generators are compared with. *)

(** [lcm(m, n) = |m*n| / gcd(m, n)] with the gcd of the Euclidean
    algorithm. *)
Definition euclid_lcm (m n : Z) : Z := Z.abs (m * n) / euclid_gcd m n.

(** The closure period of the Lissajous curve. *)
Definition lissajous_period (a b c : Z) : Z := euclid_lcm (euclid_lcm a b) c.

Section IndexForms.

Context {F : Type} `{Arith F}.

(** The explicit Euler step of the Lorenz system; the three derivatives are
    taken at the state before the step. *)
Definition euler_step (dt : F) (s : F * F * F) : F * F * F :=
  let '(x, y, z) := s in
  (add x (mul (mul sigma (sub y x)) dt),
   add y (mul (sub (mul x (sub rho z)) y) dt),
   add z (mul (sub (mul x y) (mul beta z)) dt)).

(** The state before iteration [k]. *)
Definition lorenz_trajectory (dt : F) (k : nat) : F * F * F :=
  Nat.iter k (euler_step dt) (lit 1 1, lit 0 0, lit 0 0).

Definition scaled (s : F * F * F) : F * F * F :=
  let '(x, y, z) := s in (mul x scale, mul y scale, mul z scale).

(** The state of the Lorenz loop with the list built so far. *)
Definition with_coordinates (cs : list (F * F * F)) (s : F * F * F)
  : lorenz_state :=
  let '(x, y, z) := s in (cs, x, y, z).

(** [y] and [turn_angle] before iteration [k] of the spiral: [k] additions
    of the step. *)
Definition spiral_y (radius y_step : F) (k : nat) : F :=
  Nat.iter k (fun y => add y y_step) (neg radius).

Definition spiral_turn_angle (turn_angle_step : F) (k : nat) : F :=
  Nat.iter k (fun a => add a turn_angle_step) (lit 0 0).

(** The argument of the square root at iteration [k]. *)
Definition spiral_sqrt_arg (radius y_step : F) (k : nat) : F :=
  let y := spiral_y radius y_step k in
  sub (mul radius radius) (mul y y).

(** The point of iteration [k] of the spiral. *)
Definition spiral_point (radius y_step turn_angle_step : F) (k : nat)
  : result (F * F * F) :=
  y_radius <- math_sqrt (spiral_sqrt_arg radius y_step k) ;;
  c <- math_cos (spiral_turn_angle turn_angle_step k) ;;
  s <- math_sin (spiral_turn_angle turn_angle_step k) ;;
  OK (mul c y_radius, spiral_y radius y_step k, mul s y_radius).

End IndexForms.

Module ExactForms.

Import Exact.
#[local] Open Scope R_scope.

(** The Lissajous point of index [i], as a formula over the reals. *)
Definition lissajous_formula (a b c : Z) (phase_x phase_y phase_z : R)
    (amp_x amp_y amp_z : R) (steps : Z) (i : Z) : R * R * R :=
  let period := lissajous_period a b c in
  let t_max := 2 * PI * IZR period in
  let t := (IZR i / IZR steps) * t_max in
  (amp_x * sin (IZR a * t + phase_x),
   amp_y * sin (IZR b * t + phase_y),
   amp_z * sin (IZR c * t + phase_z)).

(** The parameter value of index [i] of the torus knot. *)
Definition torus_t (p q : Z) (steps : Z) (i : Z) : R :=
  let t_max := 2 * PI * IZR (Z.max p q) in
  (IZR i / IZR steps) * t_max.

(** The torus-knot point of index [i], as a formula over the reals. *)
Definition torus_formula (p q : Z) (R0 r : R) (steps : Z) (i : Z) : R * R * R :=
  let t := torus_t p q steps i in
  ((R0 + r * cos (IZR p * t)) * cos (IZR q * t),
   (R0 + r * cos (IZR p * t)) * sin (IZR q * t),
   r * sin (IZR p * t)).

(** The spiral point of index [k], as a formula over the reals. *)
Definition spiral_formula (steps : Z) (radius turns : R) (k : nat) : R * R * R :=
  let y := - radius + INR k * (2 * radius / IZR steps) in
  let turn_angle := INR k * (turns * 2 * PI / IZR steps) in
  let y_radius := sqrt (radius * radius - y * y) in
  (cos turn_angle * y_radius, y, sin turn_angle * y_radius).

Definition on_sphere (radius : R) (pt : R * R * R) : Prop :=
  let '(x, y, z) := pt in x * x + y * y + z * z = radius * radius.

End ExactForms.

Module Binary64Forms.

Import Binary64.
#[local] Open Scope float_scope.

(** The Lorenz recurrence with its constants written out:
    [sigma = 10], [rho = 28], [beta = 8/3], from [(0.1, 0, 0)], scaled
    by [10]. *)
Definition lorenz_start : float * float * float :=
  (0x1.999999999999ap-4 (* 0.1 *), 0, 0).

Definition lorenz_euler (dt : float) (s : float * float * float)
  : float * float * float :=
  let '(x, y, z) := s in
  (x + 10 * (y - x) * dt,
   y + (x * (28 - z) - y) * dt,
   z + (x * y - 8 / 3 * z) * dt).

Definition scaled10 (s : float * float * float) : float * float * float :=
  let '(x, y, z) := s in (x * 10, y * 10, z * 10).

(** No coordinate of the point is a NaN. *)
Definition nan_free (pt : float * float * float) : Prop :=
  let '(x, y, z) := pt in
  is_nan x = false /\ is_nan y = false /\ is_nan z = false.





(** The [float] [1e200]. *)
Definition radius_1e200 : float := 0x1.4e718d7d7625ap+664.

End Binary64Forms.

(** * Properties *)

(** ** The error monad and the loops *)

Lemma bind_OK {A B : Type} (a : A) (k : A -> result B) : bind (OK a) k = k a.
Proof. reflexivity. Qed.

Lemma bind_Raise {A B : Type} (e : exn) (k : A -> result B) :
  bind (Raise e) k = Raise e.
Proof. reflexivity. Qed.

Lemma range_length (n : Z) : length (range n) = Z.to_nat n.
Proof. unfold range. now rewrite length_map, length_seq. Qed.

Lemma range_nonpos (n : Z) : n <= 0 -> range n = [].
Proof.
  intros Hn. unfold range.
  replace (Z.to_nat n) with O by lia. reflexivity.
Qed.

Lemma range_In (n i : Z) : In i (range n) <-> 0 <= i < n.
Proof.
  unfold range. rewrite in_map_iff. split.
  - intros [k [<- Hk]]. apply in_seq in Hk. lia.
  - intros Hi. exists (Z.to_nat i). split; [lia|].
    apply in_seq. lia.
Qed.

Lemma range_nth_error (n i : Z) :
  0 <= i < n -> nth_error (range n) (Z.to_nat i) = Some i.
Proof.
  intros Hi. unfold range.
  rewrite nth_error_map, nth_error_seq.
  destruct (Nat.ltb_spec (Z.to_nat i) (Z.to_nat n)) as [_|Hge]; [|lia].
  simpl. f_equal. lia.
Qed.

(** A loop whose body appends one computed element per iteration yields
    the elements in index order, or the first exception. *)
Lemma for_each_append {B : Type} (f : Z -> result B) (xs : list Z) :
  forall acc : list B,
    for_each xs (fun i acc => p <- f i ;; OK (acc ++ [p])) acc
    = (ys <- mapM f xs ;; OK (acc ++ ys)).
Proof.
  induction xs as [|x xs IH]; intros acc; simpl.
  - now rewrite app_nil_r.
  - destruct (f x) as [p|e]; simpl; [|reflexivity].
    rewrite IH. destruct (mapM f xs) as [ys|e]; simpl; [|reflexivity].
    now rewrite <- app_assoc.
Qed.

Lemma mapM_total {A B : Type} (f : A -> result B) (g : A -> B) (xs : list A) :
  (forall x, In x xs -> f x = OK (g x)) -> mapM f xs = OK (map g xs).
Proof.
  induction xs as [|x xs IH]; intros Hf; simpl; [reflexivity|].
  rewrite (Hf x) by now left. simpl.
  rewrite IH by (intros y Hy; apply Hf; now right).
  reflexivity.
Qed.

Lemma mapM_length {A B : Type} (f : A -> result B) (xs : list A) :
  forall ys, mapM f xs = OK ys -> length ys = length xs.
Proof.
  induction xs as [|x xs IH]; simpl; intros ys E.
  - injection E as <-. reflexivity.
  - destruct (f x) as [y|e]; simpl in E; [|discriminate].
    destruct (mapM f xs) as [ys'|e]; simpl in E; [|discriminate].
    injection E as <-. simpl. f_equal. now apply IH.
Qed.

Lemma map_range_nth_error {B : Type} (g : Z -> B) (n i : Z) :
  0 <= i < n -> nth_error (map g (range n)) (Z.to_nat i) = Some (g i).
Proof.
  intros Hi. rewrite nth_error_map, range_nth_error by exact Hi. reflexivity.
Qed.

(** ** gcd and lcm *)

Lemma euclid_correct (fuel : nat) :
  forall a b, Z.abs b < Z.of_nat fuel -> euclid fuel a b = Z.gcd a b.
Proof.
  induction fuel as [|fuel IH]; intros a b Hb; [lia|].
  simpl. destruct (Z.eqb_spec b 0) as [->|Hnz].
  - now rewrite Z.gcd_0_r.
  - rewrite IH.
    + rewrite Z.gcd_comm, Z.gcd_mod by exact Hnz. apply Z.gcd_comm.
    + pose proof (Z.mod_bound_or a b Hnz). lia.
Qed.

(** [math.gcd] returns what the Euclidean algorithm computes. *)
Lemma gcd_euclid (a b : Z) : gcd a b = euclid_gcd a b.
Proof.
  unfold gcd, euclid_gcd. symmetry. apply euclid_correct. lia.
Qed.

Lemma gcd_zero_iff (a b : Z) : gcd a b = 0 <-> a = 0 /\ b = 0.
Proof. unfold gcd. apply Z.gcd_eq_0. Qed.

Lemma lcm_raises_iff (a b : Z) :
  lcm a b = Raise ZeroDivisionError <-> gcd a b = 0.
Proof.
  unfold lcm, floordiv. destruct (Z.eqb_spec (gcd a b) 0) as [E|E].
  - tauto.
  - split; [discriminate|contradiction].
Qed.

(** With a non-zero gcd, [lcm] is [|a*b| / gcd(a,b)], the least common
    multiple. *)
Lemma lcm_OK (a b : Z) :
  gcd a b <> 0 -> lcm a b = OK (Z.abs (a * b) / euclid_gcd a b).
Proof.
  intros Hg. unfold lcm, floordiv. rewrite <- gcd_euclid.
  destruct (Z.eqb_spec (gcd a b) 0); [contradiction|reflexivity].
Qed.

Lemma lcm_is_Zlcm (a b : Z) :
  gcd a b <> 0 -> Z.abs (a * b) / euclid_gcd a b = Z.lcm a b.
Proof.
  intros Hg. rewrite <- gcd_euclid. unfold gcd in *.
  pose proof (Z.gcd_nonneg a b) as Hnn.
  destruct (Z.gcd_divide_r a b) as [k Hk].
  unfold Z.lcm. set (g := Z.gcd a b) in *.
  rewrite Hk at 1 2. rewrite Z.div_mul by exact Hg.
  rewrite Z.mul_assoc, Z.abs_mul, (Z.abs_eq g) by exact Hnn.
  now rewrite Z.div_mul.
Qed.

(** ** The loops, iteration by iteration *)

Section LoopForms.

Context {F : Type} `{Arith F}.

(** *** generate_lissajous and generate_torus_knot *)

(** In every arithmetic, [generate_lissajous] is the computation of [t_max]
    followed by the points of the indices [0 .. steps-1] in order; the first
    exception met is the result. *)
Lemma generate_lissajous_index_form (a b c : Z) (phase_x phase_y phase_z : F)
    (amp_x amp_y amp_z : F) (steps : Z) :
  generate_lissajous a b c phase_x phase_y phase_z amp_x amp_y amp_z steps
  = (t_max <- lissajous_t_max a b c ;;
     mapM (lissajous_point a b c phase_x phase_y phase_z amp_x amp_y amp_z
             steps t_max) (range steps)).
Proof.
  unfold generate_lissajous.
  destruct (lissajous_t_max a b c) as [t_max|e]; [|reflexivity].
  rewrite !bind_OK, for_each_append.
  destruct (mapM _ _) as [pts|e]; reflexivity.
Qed.

Lemma generate_torus_knot_index_form (p q : Z) (R r : F) (steps : Z) :
  generate_torus_knot p q R r steps
  = (t_max <- torus_t_max p q ;;
     mapM (torus_point p q R r steps t_max) (range steps)).
Proof.
  unfold generate_torus_knot.
  destruct (torus_t_max p q) as [t_max|e]; [|reflexivity].
  rewrite !bind_OK, for_each_append.
  destruct (mapM _ _) as [pts|e]; reflexivity.
Qed.

(** *** spiral *)

Lemma spiral_body_step (radius y_step turn_angle_step : F) (k : nat)
    (cs : list (F * F * F)) :
  spiral_body radius y_step turn_angle_step
    (cs, spiral_y radius y_step k, spiral_turn_angle turn_angle_step k)
  = (p <- spiral_point radius y_step turn_angle_step k ;;
     OK (cs ++ [p], spiral_y radius y_step (S k),
         spiral_turn_angle turn_angle_step (S k))).
Proof.
  unfold spiral_body, spiral_point, spiral_sqrt_arg.
  destruct (math_sqrt _) as [y_radius|e]; [|reflexivity].
  rewrite !bind_OK.
  destruct (math_cos _) as [c|e]; [|reflexivity].
  rewrite !bind_OK.
  destruct (math_sin _) as [s|e]; reflexivity.
Qed.

Lemma spiral_loop (radius y_step turn_angle_step : F) (xs : list Z) :
  forall (k : nat) (cs : list (F * F * F)),
    for_each xs (fun _ => spiral_body radius y_step turn_angle_step)
      (cs, spiral_y radius y_step k, spiral_turn_angle turn_angle_step k)
    = (pts <- mapM (spiral_point radius y_step turn_angle_step)
                (seq k (length xs)) ;;
       OK (cs ++ pts, spiral_y radius y_step (k + length xs),
           spiral_turn_angle turn_angle_step (k + length xs))).
Proof.
  induction xs as [|x xs IH]; intros k cs.
  - simpl. now rewrite app_nil_r, Nat.add_0_r.
  - cbn [for_each length seq mapM]. rewrite spiral_body_step.
    destruct (spiral_point radius y_step turn_angle_step k) as [p|e];
      [|reflexivity].
    rewrite !bind_OK, IH.
    destruct (mapM _ (seq (S k) (length xs))) as [pts|e]; [|reflexivity].
    rewrite !bind_OK, <- app_assoc, Nat.add_succ_r. reflexivity.
Qed.

(** [spiral] is its two divisions by [steps] followed by the points of the
    iterations [0 .. steps-1] in order; the first exception met is the
    result. *)
Lemma spiral_closed_form (steps : Z) (radius turns : F) :
  spiral steps radius turns
  = (fsteps <- of_int steps ;;
     y_step <- truediv (mul (lit 2 0) radius) fsteps ;;
     fsteps' <- of_int steps ;;
     turn_angle_step <- truediv (mul (mul turns (lit 2 0)) math_pi) fsteps' ;;
     mapM (spiral_point radius y_step turn_angle_step)
       (seq 0 (Z.to_nat steps))).
Proof.
  unfold spiral.
  destruct (of_int steps) as [fsteps|e]; [|reflexivity].
  rewrite !bind_OK.
  destruct (truediv (mul (lit 2 0) radius) fsteps) as [y_step|e];
    [|reflexivity].
  rewrite !bind_OK.
  destruct (truediv (mul (mul turns (lit 2 0)) math_pi) fsteps)
    as [turn_angle_step|e]; [|reflexivity].
  rewrite !bind_OK.
  change (neg radius) with (spiral_y radius y_step 0).
  change (lit 0 0) with (spiral_turn_angle turn_angle_step 0).
  rewrite spiral_loop, range_length.
  destruct (mapM _ _) as [pts|e]; reflexivity.
Qed.

(** *** lorenz_attractor *)

Lemma lorenz_body_step (dt : F) (cs : list (F * F * F)) (s : F * F * F) :
  lorenz_body dt (with_coordinates cs s)
  = with_coordinates (cs ++ [scaled s]) (euler_step dt s).
Proof. destruct s as [[x y] z]. reflexivity. Qed.

Lemma lorenz_loop (dt : F) (xs : list Z) :
  forall (k : nat) (cs : list (F * F * F)),
    for_each_pure xs (fun _ => lorenz_body dt)
      (with_coordinates cs (lorenz_trajectory dt k))
    = with_coordinates
        (cs ++ map (fun j => scaled (lorenz_trajectory dt j))
                 (seq k (length xs)))
        (lorenz_trajectory dt (k + length xs)).
Proof.
  induction xs as [|x xs IH]; intros k cs.
  - simpl. now rewrite app_nil_r, Nat.add_0_r.
  - cbn [for_each_pure length seq map]. rewrite lorenz_body_step.
    change (euler_step dt (lorenz_trajectory dt k))
      with (lorenz_trajectory dt (S k)).
    rewrite IH, <- app_assoc, Nat.add_succ_r. reflexivity.
Qed.

(** [lorenz_attractor] emits the scaled states before the iterations
    [0 .. steps-1] of the Euler recurrence. *)
Lemma lorenz_closed_form (steps : Z) (dt : F) :
  lorenz_attractor steps dt
  = map (fun k => scaled (lorenz_trajectory dt k)) (seq 0 (Z.to_nat steps)).
Proof.
  unfold lorenz_attractor.
  change lorenz_init with (with_coordinates [] (lorenz_trajectory dt 0)).
  rewrite lorenz_loop, range_length. simpl.
  destruct (lorenz_trajectory dt (Z.to_nat steps)) as [[x y] z].
  reflexivity.
Qed.

Lemma lorenz_length (steps : Z) (dt : F) :
  length (lorenz_attractor steps dt) = Z.to_nat steps.
Proof. now rewrite lorenz_closed_form, length_map, length_seq. Qed.

Lemma lorenz_nth_error (steps : Z) (dt : F) (k : nat) :
  (k < Z.to_nat steps)%nat ->
  nth_error (lorenz_attractor steps dt) k
  = Some (scaled (lorenz_trajectory dt k)).
Proof.
  intros Hk. rewrite lorenz_closed_form, nth_error_map, nth_error_seq.
  destruct (Nat.ltb_spec k (Z.to_nat steps)); [reflexivity|lia].
Qed.

End LoopForms.

(** ** generate_lissajous: the unguarded division of [lcm] *)

Section LissajousErrors.

Context {F : Type} `{Arith F}.

Lemma lissajous_t_max_raises (a b c : Z) :
  gcd a b = 0 -> lissajous_t_max a b c = Raise ZeroDivisionError.
Proof.
  intros Hg. unfold lissajous_t_max.
  now rewrite (proj2 (lcm_raises_iff a b) Hg).
Qed.

(** C10: called directly with frequencies whose inner gcd is zero (that is,
    [a = 0] and [b = 0]), [generate_lissajous] raises [ZeroDivisionError]
    from [lcm(a, b) = abs(a * b) // gcd(a, b)]: the helper does not guard
    its division, and the generator itself validates nothing. *)
Theorem lissajous_zero_gcd_raises (a b c : Z) (phase_x phase_y phase_z : F)
    (amp_x amp_y amp_z : F) (steps : Z) :
  gcd a b = 0 ->
  (a = 0 /\ b = 0) /\
  lcm a b = Raise ZeroDivisionError /\
  generate_lissajous a b c phase_x phase_y phase_z amp_x amp_y amp_z steps
  = Raise ZeroDivisionError.
Proof.
  intros Hg. split; [now apply gcd_zero_iff|]. split.
  - now apply lcm_raises_iff.
  - unfold generate_lissajous. now rewrite lissajous_t_max_raises.
Qed.

End LissajousErrors.

(** ** Exact arithmetic: the closed-form generators *)

Module ExactProofs.

Import Exact ExactForms.
#[local] Open Scope R_scope.

Lemma lit_int (m : Z) : lit m 0 = IZR m.
Proof. simpl. unfold Rdiv. rewrite Rinv_1. apply Rmult_1_r. Qed.

Lemma int_truediv_OK (i n : Z) :
  (n <> 0)%Z -> int_truediv i n = OK (IZR i / IZR n).
Proof.
  intros Hn. simpl. destruct (Z.eqb_spec n 0); [contradiction|reflexivity].
Qed.

Lemma lissajous_t_max_OK (a b c : Z) :
  (0 < a)%Z -> (0 < b)%Z -> (0 < c)%Z ->
  lissajous_t_max a b c = OK (2 * PI * IZR (lissajous_period a b c)).
Proof.
  intros Ha Hb Hc. unfold lissajous_t_max, lissajous_period, euclid_lcm.
  rewrite lcm_OK by (rewrite gcd_zero_iff; lia).
  rewrite bind_OK, lcm_OK by (rewrite gcd_zero_iff; lia).
  rewrite bind_OK. cbn [of_int RArith bind]. rewrite lit_int. reflexivity.
Qed.

Lemma lissajous_point_OK (a b c : Z) (phase_x phase_y phase_z : R)
    (amp_x amp_y amp_z : R) (steps i : Z) :
  (steps <> 0)%Z ->
  lissajous_point a b c phase_x phase_y phase_z amp_x amp_y amp_z steps
    (2 * PI * IZR (lissajous_period a b c)) i
  = OK (lissajous_formula a b c phase_x phase_y phase_z amp_x amp_y amp_z
          steps i).
Proof.
  intros Hs. unfold lissajous_point, lissajous_formula.
  rewrite int_truediv_OK by exact Hs. reflexivity.
Qed.

Lemma generate_lissajous_closed_form (a b c : Z) (phase_x phase_y phase_z : R)
    (amp_x amp_y amp_z : R) (steps : Z) :
  (0 < a)%Z -> (0 < b)%Z -> (0 < c)%Z ->
  generate_lissajous a b c phase_x phase_y phase_z amp_x amp_y amp_z steps
  = OK (map (lissajous_formula a b c phase_x phase_y phase_z
               amp_x amp_y amp_z steps) (range steps)).
Proof.
  intros Ha Hb Hc. rewrite generate_lissajous_index_form.
  rewrite lissajous_t_max_OK, bind_OK by assumption.
  apply mapM_total.
  intros i Hi. apply range_In in Hi. apply lissajous_point_OK. lia.
Qed.


(** *** generate_torus_knot *)

Lemma torus_t_max_OK (p q : Z) :
  torus_t_max p q = OK (2 * PI * IZR (Z.max p q)).
Proof. unfold torus_t_max. cbn [of_int RArith bind]. now rewrite lit_int. Qed.

Lemma torus_point_OK (p q : Z) (R0 r : R) (steps i : Z) :
  (steps <> 0)%Z ->
  torus_point p q R0 r steps (2 * PI * IZR (Z.max p q)) i
  = OK (torus_formula p q R0 r steps i).
Proof.
  intros Hs. unfold torus_point, torus_formula, torus_t.
  rewrite int_truediv_OK by exact Hs. reflexivity.
Qed.

Lemma generate_torus_knot_closed_form (p q : Z) (R0 r : R) (steps : Z) :
  generate_torus_knot p q R0 r steps
  = OK (map (torus_formula p q R0 r steps) (range steps)).
Proof.
  rewrite generate_torus_knot_index_form, torus_t_max_OK, bind_OK.
  apply mapM_total.
  intros i Hi. apply range_In in Hi. apply torus_point_OK. lia.
Qed.


(** C6: over the reals, every point [(x, y, z)] that [generate_torus_knot]
    emits satisfies [x^2 + y^2 = (R + r*cos(p*t))^2] for the parameter value
    [t] of its index: it lies on the expected tube cross-section. *)
Theorem torus_knot_cross_section (p q : Z) (R0 r : R) (steps : Z) :
  (0 < p)%Z -> (0 < q)%Z -> 0 < R0 -> 0 < r -> (0 < steps)%Z ->
  exists pts : list (R * R * R),
    generate_torus_knot p q R0 r steps = OK pts /\
    length pts = Z.to_nat steps /\
    forall (i : Z) (x y z : R), (0 <= i < steps)%Z ->
      nth_error pts (Z.to_nat i) = Some (x, y, z) ->
      x ^ 2 + y ^ 2 = (R0 + r * cos (IZR p * torus_t p q steps i)) ^ 2.
Proof.
  intros _ _ _ _ Hs.
  eexists. split; [apply generate_torus_knot_closed_form|].
  split; [now rewrite length_map, range_length|].
  intros i x y z Hi E. rewrite map_range_nth_error in E by exact Hi.
  unfold torus_formula in E. injection E as <- <- _.
  set (u := R0 + r * cos (IZR p * torus_t p q steps i)).
  pose proof (sin2_cos2 (IZR q * torus_t p q steps i)) as Hsc.
  unfold Rsqr in Hsc.
  replace ((u * cos (IZR q * torus_t p q steps i)) ^ 2
           + (u * sin (IZR q * torus_t p q steps i)) ^ 2)
    with (u ^ 2 * (sin (IZR q * torus_t p q steps i)
                   * sin (IZR q * torus_t p q steps i)
                   + cos (IZR q * torus_t p q steps i)
                     * cos (IZR q * torus_t p q steps i))) by ring.
  rewrite Hsc. ring.
Qed.

End ExactProofs.


(** ** Exact arithmetic: the spiral lies on the sphere *)

Module ExactSpiral.

Import Exact ExactForms.
#[local] Open Scope R_scope.

Lemma truediv_int_OK (x : R) (steps : Z) :
  (steps <> 0)%Z -> truediv x (IZR steps) = OK (x / IZR steps).
Proof.
  intros Hs. unfold truediv. cbn [is_zero fdiv RArith].
  destruct (Req_dec_T (IZR steps) 0) as [E|_]; [|reflexivity].
  now apply eq_IZR_R0 in E.
Qed.

Lemma spiral_y_formula (radius y_step : R) (k : nat) :
  spiral_y radius y_step k = - radius + INR k * y_step.
Proof.
  unfold spiral_y. induction k as [|k IH].
  - simpl. ring.
  - rewrite Nat.iter_succ, IH, S_INR. cbn [add RArith]. ring.
Qed.

Lemma spiral_turn_angle_formula (turn_angle_step : R) (k : nat) :
  spiral_turn_angle turn_angle_step k = INR k * turn_angle_step.
Proof.
  unfold spiral_turn_angle. induction k as [|k IH].
  - change (Nat.iter 0 _ (lit 0 0)) with (lit 0 0).
    rewrite ExactProofs.lit_int. simpl. ring.
  - rewrite Nat.iter_succ, IH, S_INR. cbn [add RArith]. ring.
Qed.

(** Within the loop the argument of the square root is never negative. *)
Lemma spiral_sqrt_arg_nonneg (steps : Z) (radius : R) (k : nat) :
  (0 < steps)%Z -> (k < Z.to_nat steps)%nat ->
  0 <= spiral_sqrt_arg radius (2 * radius / IZR steps) k.
Proof.
  intros Hs Hk. unfold spiral_sqrt_arg. rewrite spiral_y_formula.
  cbn [sub mul RArith].
  assert (Hpos : 0 < IZR steps) by now apply IZR_lt.
  assert (Hk' : INR k < IZR steps).
  { rewrite INR_IZR_INZ. apply IZR_lt. lia. }
  pose proof (pos_INR k) as Hk0.
  set (u := INR k / IZR steps).
  assert (Hu : 0 <= u < 1).
  { unfold u. split.
    - apply Rmult_le_pos; [exact Hk0|]. left. now apply Rinv_0_lt_compat.
    - apply (Rmult_lt_reg_r (IZR steps)); [exact Hpos|].
      unfold Rdiv. rewrite Rmult_assoc, Rinv_l, Rmult_1_r, Rmult_1_l; lra. }
  replace (radius * radius
           - (- radius + INR k * (2 * radius / IZR steps))
             * (- radius + INR k * (2 * radius / IZR steps)))
    with (radius * radius * (4 * (u * (1 - u)))).
  - apply Rmult_le_pos; [apply Rle_0_sqr|].
    apply Rmult_le_pos; [lra|]. apply Rmult_le_pos; lra.
  - unfold u. field. lra.
Qed.

Lemma spiral_point_OK (steps : Z) (radius turns : R) (k : nat) :
  (0 < steps)%Z -> (k < Z.to_nat steps)%nat ->
  spiral_point radius (2 * radius / IZR steps)
    (turns * 2 * PI / IZR steps) k
  = OK (spiral_formula steps radius turns k).
Proof.
  intros Hs Hk. unfold spiral_point, spiral_formula.
  pose proof (spiral_sqrt_arg_nonneg radius Hs Hk) as Hnn.
  cbn [math_sqrt math_cos math_sin RArith].
  destruct (Rlt_dec _ 0) as [Hneg|_]; [lra|].
  rewrite !bind_OK. unfold spiral_sqrt_arg.
  rewrite spiral_y_formula, spiral_turn_angle_formula. reflexivity.
Qed.

Lemma spiral_formula_on_sphere (steps : Z) (radius turns : R) (k : nat) :
  (0 < steps)%Z -> (k < Z.to_nat steps)%nat ->
  on_sphere radius (spiral_formula steps radius turns k).
Proof.
  intros Hs Hk. unfold on_sphere, spiral_formula.
  pose proof (spiral_sqrt_arg_nonneg radius Hs Hk) as Hnn.
  unfold spiral_sqrt_arg in Hnn. rewrite spiral_y_formula in Hnn.
  cbn [sub mul RArith] in Hnn.
  set (y := - radius + INR k * (2 * radius / IZR steps)) in *.
  set (ta := INR k * (turns * 2 * PI / IZR steps)).
  pose proof (sqrt_sqrt _ Hnn) as Hsq.
  pose proof (sin2_cos2 ta) as Hsc. unfold Rsqr in Hsc.
  set (s := sqrt (radius * radius - y * y)) in *.
  replace (cos ta * s * (cos ta * s) + y * y + sin ta * s * (sin ta * s))
    with ((sin ta * sin ta + cos ta * cos ta) * (s * s) + y * y) by ring.
  rewrite Hsc, Hsq. ring.
Qed.

Lemma spiral_exact_closed_form (steps : Z) (radius turns : R) :
  (0 < steps)%Z ->
  spiral steps radius turns
  = OK (map (spiral_formula steps radius turns) (seq 0 (Z.to_nat steps))).
Proof.
  intros Hs. rewrite spiral_closed_form.
  cbn [of_int RArith]. rewrite !bind_OK.
  rewrite truediv_int_OK, !bind_OK, truediv_int_OK, !bind_OK by lia.
  rewrite !ExactProofs.lit_int. cbn [mul math_pi RArith].
  apply mapM_total. intros k Hk. apply in_seq in Hk.
  apply spiral_point_OK; [exact Hs|lia].
Qed.

(** C9: over the reals, for positive [steps], [radius] and [turns], [spiral]
    returns [steps] points, the point of index [k] being
    [(cos(angle)*y_radius, y, sin(angle)*y_radius)] with
    [y_radius = sqrt(radius^2 - y^2)] for the [y] and the angle of that
    step, and every point lies on the sphere of the given radius about the
    origin: [x^2 + y^2 + z^2 = radius^2]. *)
Theorem spiral_on_sphere (steps : Z) (radius turns : R) :
  (0 < steps)%Z -> 0 < radius -> 0 < turns ->
  exists pts : list (R * R * R),
    spiral steps radius turns = OK pts /\
    length pts = Z.to_nat steps /\
    (forall k : nat, (k < Z.to_nat steps)%nat ->
       nth_error pts k = Some (spiral_formula steps radius turns k)) /\
    Forall (on_sphere radius) pts.
Proof.
  intros Hs _ _.
  eexists. split; [now apply spiral_exact_closed_form|].
  split; [now rewrite length_map, length_seq|].
  split.
  - intros k Hk. rewrite nth_error_map, nth_error_seq.
    destruct (Nat.ltb_spec k (Z.to_nat steps)); [reflexivity|lia].
  - apply Forall_map, Forall_forall. intros k Hk. apply in_seq in Hk.
    apply spiral_formula_on_sphere; [exact Hs|lia].
Qed.

End ExactSpiral.

(** ** binary64: faults of the square root, and the Lorenz recurrence *)

Module Binary64Proofs.

Import Binary64 Binary64Forms.
#[local] Open Scope float_scope.

Lemma float_of_spec (x : float) (s : spec_float) :
  Prim2SF x = s -> x = SF2Prim s.
Proof. intros <-. symmetry. apply SF2Prim_Prim2SF. Qed.

Lemma is_nan_inv (x : float) : is_nan x = true -> x = nan.
Proof.
  unfold is_nan. rewrite FloatAxioms.eqb_spec. intros Hx.
  apply (float_of_spec x (s := S754_nan)).
  destruct (Prim2SF x) as [s| s | |s m e]; try reflexivity;
    unfold SFeqb, SFcompare in Hx.
  - destruct s; discriminate.
  - destruct s; discriminate.
  - destruct s; rewrite Z.compare_refl, ?Pos.compare_cont_refl in Hx;
      discriminate.
Qed.

Lemma mul_nan_r (x : float) : x * nan = nan.
Proof.
  apply (float_of_spec (x * nan) (s := S754_nan)).
  rewrite FloatAxioms.mul_spec. change (Prim2SF nan) with S754_nan.
  unfold SF64mul, SFmul. destruct (Prim2SF x) as [s| s | |s m e]; reflexivity.
Qed.

(** The square root of a negative number is a domain error. *)
Lemma math_sqrt_negative (x : float) :
  (x <? 0) = true -> math_1 PrimFloat.sqrt x = Raise ValueError.
Proof.
  intros Hx. rewrite FloatAxioms.ltb_spec in Hx. change (Prim2SF 0) with (S754_zero false) in Hx.
  assert (Hs : Prim2SF (PrimFloat.sqrt x) = S754_nan /\ Prim2SF x <> S754_nan).
  { rewrite FloatAxioms.sqrt_spec. unfold SF64sqrt, SFsqrt.
    destruct (Prim2SF x) as [s| s | |s m e]; unfold SFltb, SFcompare in Hx;
      try discriminate; destruct s; try discriminate; split;
      try reflexivity; discriminate. }
  destruct Hs as [Hs Hx'].
  apply float_of_spec in Hs. change (SF2Prim S754_nan) with nan in Hs.
  unfold math_1. rewrite Hs.
  assert (Hn : is_nan x = false).
  { destruct (is_nan x) eqn:E; [|reflexivity].
    apply is_nan_inv in E. subst x. now contradiction Hx'. }
  rewrite Hn. reflexivity.
Qed.

(** [math_1] never alters what the C function returns. *)
Lemma math_1_value (func : float -> float) (x r : float) :
  math_1 func x = OK r -> r = func x.
Proof.
  unfold math_1. destruct (_ && _); [discriminate|].
  destruct (_ && _); [discriminate|]. now intros [= <-].
Qed.

(** The arithmetic on a few values. *)

Example float_of_int_rounds :
  float_of_int (2 ^ 53 + 1) = OK 9007199254740992 /\
  float_of_int (2 ^ 1024) = Raise OverflowError.
Proof. split; reflexivity. Qed.

Example int_truediv_rounds :
  float_int_truediv 1 3 = OK 0x1.5555555555555p-2 /\
  float_int_truediv 1 10 = OK 0x1.999999999999ap-4 /\
  float_int_truediv 1 0 = Raise ZeroDivisionError.
Proof. repeat split; reflexivity. Qed.

Example sqrt_domain :
  math_1 PrimFloat.sqrt (-1) = Raise ValueError /\
  math_1 PrimFloat.sqrt 4 = OK 2 /\
  math_1 PrimFloat.sqrt (-0) = OK (-0) /\
  math_1 PrimFloat.sqrt nan = OK nan /\
  math_1 PrimFloat.sqrt infinity = OK infinity.
Proof. repeat split; reflexivity. Qed.

Section WithLibm.

Variable L : Libm.

Let A : Arith float := FArith L.
#[local] Existing Instance A.

Lemma spiral_point_negative (radius y_step turn_angle_step : float) (k : nat) :
  (spiral_sqrt_arg radius y_step k <? 0) = true ->
  spiral_point radius y_step turn_angle_step k = Raise ValueError.
Proof.
  intros Hneg. unfold spiral_point.
  change (math_sqrt (spiral_sqrt_arg radius y_step k))
    with (math_1 PrimFloat.sqrt (spiral_sqrt_arg radius y_step k)).
  now rewrite math_sqrt_negative.
Qed.

Lemma spiral_point_value (radius y_step turn_angle_step : float) (k : nat)
    (x y z : float) :
  spiral_point radius y_step turn_angle_step k = OK (x, y, z) ->
  (spiral_sqrt_arg radius y_step k <? 0) = false /\
  y = spiral_y radius y_step k /\
  x = libm_cos L (spiral_turn_angle turn_angle_step k)
      * PrimFloat.sqrt (spiral_sqrt_arg radius y_step k) /\
  z = libm_sin L (spiral_turn_angle turn_angle_step k)
      * PrimFloat.sqrt (spiral_sqrt_arg radius y_step k).
Proof.
  intros E. split.
  - destruct (_ <? 0) eqn:Hneg; [|reflexivity].
    rewrite spiral_point_negative in E by exact Hneg. discriminate.
  - unfold spiral_point in E.
    destruct (math_sqrt _) as [y_radius|e] eqn:Es; [|discriminate].
    destruct (math_cos _) as [c|e] eqn:Ec; [|discriminate].
    destruct (math_sin _) as [s|e] eqn:Esn; [|discriminate].
    apply math_1_value in Es, Ec, Esn. subst.
    injection E as <- <- <-. repeat split.
Qed.

Lemma spiral_point_nan (radius y_step turn_angle_step : float) (k : nat)
    (x y z : float) :
  is_nan (spiral_sqrt_arg radius y_step k) = true ->
  spiral_point radius y_step turn_angle_step k = OK (x, y, z) ->
  x = nan /\ z = nan.
Proof.
  intros Hn E. apply spiral_point_value in E.
  destruct E as (_ & _ & -> & ->).
  apply is_nan_inv in Hn. rewrite Hn.
  change (PrimFloat.sqrt nan) with nan. now rewrite !mul_nan_r.
Qed.

(** C1, as the generator computes it: at every step the cross-sectional
    radius is [y_radius = sqrt(radius*radius - y*y)] and the argument of the
    square root is not clamped.  [spiral] is its two divisions followed by
    the points of the steps in order; a step whose argument is negative
    raises the domain error [ValueError]; a step that yields a point has a
    non-negative or NaN argument and coordinates
    [(cos(angle)*sqrt(arg), y, sin(angle)*sqrt(arg))], so a NaN argument
    gives NaN coordinates. *)
Theorem spiral_sqrt_unclamped (steps : Z) (radius turns : float) :
  spiral steps radius turns
  = (fsteps <- float_of_int steps ;;
     y_step <- truediv (2 * radius) fsteps ;;
     fsteps' <- float_of_int steps ;;
     turn_angle_step <- truediv (turns * 2 * math_pi) fsteps' ;;
     mapM (spiral_point radius y_step turn_angle_step)
       (seq 0 (Z.to_nat steps)))
  /\
  forall (y_step turn_angle_step : float) (k : nat),
    let arg := radius * radius
               - spiral_y radius y_step k * spiral_y radius y_step k in
    ((arg <? 0) = true ->
     spiral_point radius y_step turn_angle_step k = Raise ValueError) /\
    (forall x y z : float,
        spiral_point radius y_step turn_angle_step k = OK (x, y, z) ->
        (arg <? 0) = false /\
        y = spiral_y radius y_step k /\
        x = libm_cos L (spiral_turn_angle turn_angle_step k)
            * PrimFloat.sqrt arg /\
        z = libm_sin L (spiral_turn_angle turn_angle_step k)
            * PrimFloat.sqrt arg /\
        (is_nan arg = true -> x = nan /\ z = nan)).
Proof.
  split; [rewrite (spiral_closed_form (F:=float)); reflexivity|].
  intros y_step turn_angle_step k arg.
  change arg with (spiral_sqrt_arg radius y_step k).
  split; [apply spiral_point_negative|].
  intros x y z E.
  destruct (spiral_point_value _ _ _ _ E) as (H1 & H2 & H3 & H4).
  repeat split; try assumption;
    now destruct (spiral_point_nan _ _ _ _ H E).
Qed.

(** *** lorenz_attractor *)

Example literals :
  lit 1 1 = 0x1.999999999999ap-4 /\ lit 1 2 = 0x1.47ae147ae147bp-7 /\
  sigma = 10 /\ rho = 28 /\ beta = 0x1.5555555555555p+1 /\ scale = 10.
Proof. repeat split; reflexivity. Qed.

(** Three steps with [dt = 0.01]. *)
Example lorenz_three_steps :
  lorenz_attractor 3 0x1.47ae147ae147bp-7
  = [(1, 0, 0);
     (0x1.ccccccccccccep-1, 0x1.1eb851eb851ecp-2, 0);
     (0x1.ad0e560418938p-1, 0x1.0ef34d6a161e6p-1, 0x1.083dbc23315d8p-12)].
Proof. vm_compute. reflexivity. Qed.

Lemma euler_step_float (dt : float) (s : float * float * float) :
  euler_step dt s = lorenz_euler dt s.
Proof. destruct s as [[x y] z]. reflexivity. Qed.

Lemma scaled_float (s : float * float * float) : scaled s = scaled10 s.
Proof. destruct s as [[x y] z]. reflexivity. Qed.

Lemma lorenz_trajectory_float (dt : float) (k : nat) :
  lorenz_trajectory dt k = Nat.iter k (lorenz_euler dt) lorenz_start.
Proof.
  unfold lorenz_trajectory. induction k as [|k IH]; [reflexivity|].
  now rewrite !Nat.iter_succ, IH, euler_step_float.
Qed.

(** C4: for a positive step count, [lorenz_attractor] returns exactly
    [steps] points of the explicit Euler integration with [sigma = 10],
    [rho = 28], [beta = 8/3] from [(0.1, 0, 0)]: the point of iteration [k]
    is the state before that iteration scaled by [10], the state being
    advanced only afterwards by [x += sigma*(y-x)*dt],
    [y += (x*(rho-z)-y)*dt], [z += (x*y-beta*z)*dt] (the three derivatives
    taken at the state before the step); the first point is
    [(1.0, 0.0, 0.0)]. *)
Theorem lorenz_euler_sequence (steps : Z) (dt : float) :
  (0 < steps)%Z ->
  length (lorenz_attractor steps dt) = Z.to_nat steps /\
  (forall k : nat, (k < Z.to_nat steps)%nat ->
     nth_error (lorenz_attractor steps dt) k
     = Some (scaled10 (Nat.iter k (lorenz_euler dt) lorenz_start))) /\
  nth_error (lorenz_attractor steps dt) 0 = Some (1, 0, 0).
Proof.
  intros Hs. split; [apply lorenz_length|]. split.
  - intros k Hk.
    now rewrite lorenz_nth_error, scaled_float, lorenz_trajectory_float.
  - rewrite lorenz_nth_error by lia. reflexivity.
Qed.

End WithLibm.

(** C1, as stated, fails: with [steps = 1], [radius = 1e200] and
    [turns = 1], [radius*radius] and [y*y] overflow, their difference under
    the square root is a NaN, and no clamp stops it: whatever the C
    library's [sin] and [cos], the call does not return a NaN-free
    sequence. *)
Lemma spiral_nan_at_1e200 :
  ~ exists L : Libm,
      forall (steps : Z) (radius turns : float),
        (0 < steps)%Z -> (0 <? radius) = true -> (0 <? turns) = true ->
        exists pts : list (float * float * float),
          @spiral float (FArith L) steps radius turns = OK pts /\
          Forall nan_free pts.
Proof.
  intros [L Hclaim].
  destruct (Hclaim 1%Z radius_1e200 1) as [pts [E Hfree]];
    [lia|reflexivity|reflexivity|].
  rewrite (spiral_closed_form (F:=float)) in E.
  destruct (of_int 1) as [fsteps|e]; [|discriminate].
  rewrite !bind_OK in E.
  destruct (truediv _ fsteps) as [y_step|e]; [|discriminate].
  rewrite !bind_OK in E.
  destruct (truediv _ fsteps) as [turn_angle_step|e]; [|discriminate].
  rewrite !bind_OK in E.
  change (seq 0 (Z.to_nat 1)) with [O] in E. cbn [mapM] in E.
  destruct (spiral_point radius_1e200 y_step turn_angle_step 0)
    as [[[x y] z]|e] eqn:Ep; [|discriminate].
  rewrite !bind_OK in E. injection E as <-.
  apply Forall_inv in Hfree. destruct Hfree as [Hx _].
  apply spiral_point_nan in Ep; [|reflexivity].
  destruct Ep as [-> _]. discriminate.
Qed.

End Binary64Proofs.

(** ** Purity *)

Module Determinism.

Import Binary64 Binary64Forms.






End Determinism.

(** ** Step counts that are not positive *)

Section NoSteps.

Context {F : Type} `{Arith F}.

Lemma lissajous_no_steps (a b c : Z) (phase_x phase_y phase_z : F)
    (amp_x amp_y amp_z : F) (steps : Z) :
  steps <= 0 ->
  generate_lissajous a b c phase_x phase_y phase_z amp_x amp_y amp_z steps
  = (t_max <- lissajous_t_max a b c ;; OK []).
Proof.
  intros Hs. unfold generate_lissajous. now rewrite range_nonpos.
Qed.

Lemma torus_knot_no_steps (p q : Z) (R r : F) (steps : Z) :
  steps <= 0 ->
  generate_torus_knot p q R r steps = (t_max <- torus_t_max p q ;; OK []).
Proof.
  intros Hs. unfold generate_torus_knot. now rewrite range_nonpos.
Qed.

Lemma lorenz_no_steps (steps : Z) (dt : F) :
  steps <= 0 -> lorenz_attractor steps dt = [].
Proof.
  intros Hs. rewrite lorenz_closed_form.
  replace (Z.to_nat steps) with O by lia. reflexivity.
Qed.

Lemma spiral_no_steps (steps : Z) (radius turns : F) :
  steps <= 0 ->
  spiral steps radius turns
  = (fsteps <- of_int steps ;;
     y_step <- truediv (mul (lit 2 0) radius) fsteps ;;
     fsteps' <- of_int steps ;;
     turn_angle_step <- truediv (mul (mul turns (lit 2 0)) math_pi) fsteps' ;;
     OK []).
Proof.
  intros Hs. rewrite spiral_closed_form.
  replace (Z.to_nat steps) with O by lia. reflexivity.
Qed.

End NoSteps.

Module NonPositiveSteps.

Import Exact Binary64.

Lemma spiral_zero_steps_exact (radius turns : R) :
  spiral 0 radius turns = Raise ZeroDivisionError.
Proof.
  rewrite spiral_no_steps by lia. cbn [of_int RArith]. rewrite bind_OK.
  unfold truediv. cbn [is_zero RArith].
  destruct (Req_dec_T (IZR 0) 0) as [_|Hne]; [reflexivity|].
  now contradiction Hne.
Qed.

Lemma spiral_zero_steps_float (L : Libm) (radius turns : float) :
  @spiral float (FArith L) 0 radius turns = Raise ZeroDivisionError.
Proof. rewrite (spiral_no_steps (F:=float)) by lia. reflexivity. Qed.

(** C8, as stated, fails for [spiral]: with [steps = 0] the division
    [(2 * radius) / steps] before the loop raises [ZeroDivisionError], in
    exact arithmetic and in binary64 alike. *)
Lemma spiral_zero_steps_raises :
  @spiral R RArith 0 1%R 1%R = Raise ZeroDivisionError /\
  (forall L : Libm,
      @spiral float (FArith L) 0 1%float 1%float = Raise ZeroDivisionError).
Proof.
  split; [apply spiral_zero_steps_exact|].
  intros L. apply spiral_zero_steps_float.
Qed.

(** C8, as the code has it: for every [steps <= 0] the loop of each
    generation function runs zero times.  Called directly,
    [lorenz_attractor] returns the empty sequence; [generate_lissajous]
    (with positive frequencies) and [generate_torus_knot] return the empty
    sequence and raise no error, and so does [spiral] for [steps < 0]; for
    [steps = 0], [spiral] raises [ZeroDivisionError].  This holds in exact
    arithmetic, and in binary64 as long as the computations before the loop
    succeed (the integers convert to [float]). *)
Theorem nonpositive_steps (steps : Z) :
  steps <= 0 ->
  ((forall (a b c : Z) (px py pz ax ay az : R),
       0 < a -> 0 < b -> 0 < c ->
       generate_lissajous a b c px py pz ax ay az steps = OK []) /\
   (forall dt : R, lorenz_attractor steps dt = []) /\
   (forall (p q : Z) (R0 r : R), generate_torus_knot p q R0 r steps = OK []) /\
   (forall radius turns : R,
       steps < 0 -> spiral steps radius turns = OK []) /\
   (forall radius turns : R,
       steps = 0 -> spiral steps radius turns = Raise ZeroDivisionError)) /\
  (forall L : Libm,
      (forall (a b c : Z) (px py pz ax ay az t_max : float),
          @lissajous_t_max float (FArith L) a b c = OK t_max ->
          @generate_lissajous float (FArith L) a b c px py pz ax ay az steps
          = OK []) /\
      (forall dt : float, @lorenz_attractor float (FArith L) steps dt = []) /\
      (forall (p q : Z) (R0 r t_max : float),
          @torus_t_max float (FArith L) p q = OK t_max ->
          @generate_torus_knot float (FArith L) p q R0 r steps = OK []) /\
      (forall radius turns fsteps : float,
          steps < 0 ->
          float_of_int steps = OK fsteps -> (fsteps =? 0)%float = false ->
          @spiral float (FArith L) steps radius turns = OK []) /\
      (forall radius turns : float,
          steps = 0 ->
          @spiral float (FArith L) steps radius turns
          = Raise ZeroDivisionError)).
Proof.
  intros Hs. split; [repeat split|intros L; repeat split].
  - intros a b c px py pz ax ay az Ha Hb Hc.
    rewrite lissajous_no_steps by exact Hs.
    now rewrite ExactProofs.lissajous_t_max_OK.
  - intros dt. now apply lorenz_no_steps.
  - intros p q R0 r. rewrite torus_knot_no_steps by exact Hs.
    now rewrite ExactProofs.torus_t_max_OK.
  - intros radius turns Hneg. rewrite spiral_no_steps by exact Hs.
    cbn [of_int RArith]. rewrite !bind_OK.
    now rewrite !ExactSpiral.truediv_int_OK, !bind_OK by lia.
  - intros radius turns ->. apply spiral_zero_steps_exact.
  - intros a b c px py pz ax ay az t_max Ht.
    rewrite (lissajous_no_steps (F:=float)) by exact Hs. now rewrite Ht.
  - intros dt. now apply (lorenz_no_steps (F:=float)).
  - intros p q R0 r t_max Ht.
    rewrite (torus_knot_no_steps (F:=float)) by exact Hs. now rewrite Ht.
  - intros radius turns fsteps Hneg Hconv Hnz.
    rewrite (spiral_no_steps (F:=float)) by exact Hs.
    change (@of_int float (FArith L) steps) with (float_of_int steps).
    rewrite Hconv, !bind_OK. unfold truediv.
    change (@is_zero float (FArith L) fsteps) with (fsteps =? 0)%float.
    now rewrite Hnz.
  - intros radius turns ->. apply spiral_zero_steps_float.
Qed.

End NonPositiveSteps.

(** ** Validation in the entry points *)

Section Validation.

Context {F : Type} `{Arith F}.


End Validation.

Module Unvalidated.

Import Exact ExactForms.
#[local] Open Scope R_scope.


End Unvalidated.

(** ** The theorems at concrete inputs *)

Module Concrete.

Import Exact ExactForms Binary64 Binary64Forms.


(** A single step with [dt = 0.01]. *)
Lemma lorenz_euler_sequence_witness :
  0 < 1 /\
  forall L : Libm,
    @lorenz_attractor float (FArith L) 1 0x1.47ae147ae147bp-7%float
    = [(1, 0, 0)%float].
Proof.
  split; [lia|]. intros L.
  destruct (@Binary64Proofs.lorenz_euler_sequence L 1
              0x1.47ae147ae147bp-7%float) as (Hlen & _ & Hfirst); [lia|].
  destruct (lorenz_attractor 1 0x1.47ae147ae147bp-7%float) as [|pt [|pt' pts]];
    try discriminate.
  now injection Hfirst as ->.
Defined.


Lemma torus_knot_cross_section_witness :
  0 < 3 /\ 0 < 2 /\ (0 < 100)%R /\ (0 < 50)%R /\ 0 < 4 /\
  exists pts : list (R * R * R),
    generate_torus_knot 3 2 100%R 50%R 4 = OK pts /\
    forall (i : Z) (x y z : R), 0 <= i < 4 ->
      nth_error pts (Z.to_nat i) = Some (x, y, z) ->
      (x ^ 2 + y ^ 2 = (100 + 50 * cos (IZR 3 * torus_t 3 2 4 i)) ^ 2)%R.
Proof.
  split; [lia|]. split; [lia|]. split; [lra|]. split; [lra|]. split; [lia|].
  destruct (@ExactProofs.torus_knot_cross_section 3 2 100%R 50%R 4)
    as (pts & E & _ & Hsec); try lia; try lra.
  exists pts. split; assumption.
Defined.

(** The call of generate_spiral_sphere.py:
    [spiral(steps=25000, radius=200, turns=30)]. *)
Lemma spiral_on_sphere_witness :
  0 < 25000 /\ (0 < 200)%R /\ (0 < 30)%R /\
  exists pts : list (R * R * R),
    spiral 25000 200%R 30%R = OK pts /\
    length pts = Z.to_nat 25000 /\
    Forall (on_sphere 200) pts.
Proof.
  split; [lia|]. split; [lra|]. split; [lra|].
  destruct (@ExactSpiral.spiral_on_sphere 25000 200%R 30%R)
    as (pts & E & Hlen & _ & Hsph); try lia; try lra.
  exists pts. repeat split; assumption.
Defined.

Lemma lissajous_zero_gcd_raises_witness :
  gcd 0 0 = 0 /\
  generate_lissajous 0 0 5 0%R (PI / 2)%R 0%R 100%R 100%R 100%R 25000
  = Raise ZeroDivisionError.
Proof.
  split; [reflexivity|].
  apply (@lissajous_zero_gcd_raises R RArith 0 0 5 0%R (PI / 2)%R 0%R
           100%R 100%R 100%R 25000).
  reflexivity.
Defined.

(** Three steps fewer than none, with the defaults of the scripts. *)
Lemma nonpositive_steps_witness :
  -3 <= 0 /\
  generate_lissajous 3 4 5 0%R (PI / 2)%R 0%R 100%R 100%R 100%R (-3) = OK [] /\
  lorenz_attractor (-3) (1 / 100)%R = [] /\
  generate_torus_knot 3 2 100%R 50%R (-3) = OK [] /\
  spiral (-3) 200%R 30%R = OK [] /\
  forall L : Libm,
    @generate_lissajous float (FArith L) 3 4 5 0%float
      0x1.921fb54442d18p+0%float 0%float 100%float 100%float 100%float (-3)
    = OK [] /\
    @spiral float (FArith L) (-3) 200%float 30%float = OK [].
Proof.
  split; [lia|].
  destruct (@NonPositiveSteps.nonpositive_steps (-3))
    as ((Hliss & Hlor & Htor & Hsp & _) & Hfloat); [lia|].
  split; [apply Hliss; lia|]. split; [apply Hlor|].
  split; [apply Htor|]. split; [apply Hsp; lia|].
  intros L. destruct (Hfloat L) as (Hfliss & _ & _ & Hfsp & _). split.
  - apply (Hfliss 3 4 5 _ _ _ _ _ _ 0x1.78fdb9effea46p+8%float). reflexivity.
  - apply (Hfsp _ _ (-3)%float); [lia|reflexivity|reflexivity].
Defined.

End Concrete.

(** * Further properties of the generators *)

(** ** The [lcm] helper and the closure period *)

(** Unless both arguments are zero, the helper [lcm] of [generate_lissajous]
    returns the least common multiple: a non-negative common multiple of
    its arguments that divides every common multiple. *)
Theorem lcm_least_common_multiple (a b : Z) :
  ~ (a = 0 /\ b = 0) ->
  exists l : Z,
    lcm a b = OK l /\ 0 <= l /\ (a | l) /\ (b | l) /\
    forall m : Z, (a | m) -> (b | m) -> (l | m).
Proof.
  intros Hab.
  assert (Hg : gcd a b <> 0) by now rewrite gcd_zero_iff.
  exists (Z.lcm a b). split.
  - rewrite lcm_OK by exact Hg. f_equal. now apply lcm_is_Zlcm.
  - split; [apply Z.lcm_nonneg|]. split; [apply Z.divide_lcm_l|].
    split; [apply Z.divide_lcm_r|]. intros m Ha Hb. now apply Z.lcm_least.
Qed.

Lemma lissajous_period_lcm (a b c : Z) :
  ~ (a = 0 /\ b = 0) -> ~ (Z.lcm a b = 0 /\ c = 0) ->
  lissajous_period a b c = Z.lcm (Z.lcm a b) c.
Proof.
  intros Hab Hc. unfold lissajous_period, euclid_lcm.
  rewrite (@lcm_is_Zlcm a b) by now rewrite gcd_zero_iff.
  apply lcm_is_Zlcm. now rewrite gcd_zero_iff.
Qed.

Module ExactCurves.

Import Exact ExactForms.
#[local] Open Scope R_scope.

Lemma sin_period_Z (x : R) (k : Z) : sin (x + 2 * IZR k * PI) = sin x.
Proof.
  destruct (Z_le_gt_dec 0 k) as [Hk|Hk].
  - rewrite <- (Z2Nat.id k), <- INR_IZR_INZ by lia. apply sin_period.
  - rewrite <- (sin_period (x + 2 * IZR k * PI) (Z.to_nat (- k))).
    f_equal. rewrite INR_IZR_INZ, Z2Nat.id, opp_IZR by lia. ring.
Qed.

Lemma cos_period_Z (x : R) (k : Z) : cos (x + 2 * IZR k * PI) = cos x.
Proof.
  destruct (Z_le_gt_dec 0 k) as [Hk|Hk].
  - rewrite <- (Z2Nat.id k), <- INR_IZR_INZ by lia. apply cos_period.
  - rewrite <- (cos_period (x + 2 * IZR k * PI) (Z.to_nat (- k))).
    f_equal. rewrite INR_IZR_INZ, Z2Nat.id, opp_IZR by lia. ring.
Qed.

(** Two sample parameters that differ by a whole number of turns. *)
Lemma sample_shift (n : Z) (steps i j k : Z) :
  (steps <> 0)%Z -> ((j - i) * n = k * steps)%Z ->
  IZR j / IZR steps * (2 * PI * IZR n)
  = IZR i / IZR steps * (2 * PI * IZR n) + 2 * IZR k * PI.
Proof.
  intros Hs E.
  assert (Hs' : IZR steps <> 0) by (intros H0; now apply eq_IZR_R0 in H0).
  assert (Hr : IZR j * IZR n = IZR i * IZR n + IZR k * IZR steps).
  { rewrite <- !mult_IZR, <- plus_IZR. f_equal. lia. }
  unfold Rdiv.
  replace (IZR j * / IZR steps * (2 * PI * IZR n))
    with (IZR j * IZR n * (2 * PI * / IZR steps)) by ring.
  rewrite Hr. field. exact Hs'.
Qed.

Lemma lissajous_formula_shift (a b c : Z) (px py pz ax ay az : R)
    (steps i j k : Z) :
  (steps <> 0)%Z -> ((j - i) * lissajous_period a b c = k * steps)%Z ->
  lissajous_formula a b c px py pz ax ay az steps j
  = lissajous_formula a b c px py pz ax ay az steps i.
Proof.
  intros Hs E. unfold lissajous_formula.
  rewrite (@sample_shift (lissajous_period a b c) steps i j k Hs E).
  set (t := IZR i / IZR steps * (2 * PI * IZR (lissajous_period a b c))).
  replace (IZR a * (t + 2 * IZR k * PI) + px)
    with (IZR a * t + px + 2 * IZR (a * k) * PI)
    by (rewrite mult_IZR; ring).
  replace (IZR b * (t + 2 * IZR k * PI) + py)
    with (IZR b * t + py + 2 * IZR (b * k) * PI)
    by (rewrite mult_IZR; ring).
  replace (IZR c * (t + 2 * IZR k * PI) + pz)
    with (IZR c * t + pz + 2 * IZR (c * k) * PI)
    by (rewrite mult_IZR; ring).
  now rewrite !sin_period_Z.
Qed.

(** Over the reals the Lissajous curve closes and is retraced: the point
    the loop would compute at index [steps] is the first point, and two
    emitted points coincide whenever their indices differ by a whole number
    of turns, [(j - i) * period = k * steps]. *)
Theorem lissajous_retraces (a b c : Z) (px py pz ax ay az : R) (steps : Z) :
  (0 < a)%Z -> (0 < b)%Z -> (0 < c)%Z -> (0 < steps)%Z ->
  exists pts : list (R * R * R),
    generate_lissajous a b c px py pz ax ay az steps = OK pts /\
    (forall i j k : Z,
        (0 <= i < steps)%Z -> (0 <= j < steps)%Z ->
        ((j - i) * lissajous_period a b c = k * steps)%Z ->
        nth_error pts (Z.to_nat i) = nth_error pts (Z.to_nat j)) /\
    (exists first : R * R * R,
        nth_error pts 0 = Some first /\
        lissajous_point a b c px py pz ax ay az steps
          (2 * PI * IZR (lissajous_period a b c)) steps = OK first).
Proof.
  intros Ha Hb Hc Hs. eexists.
  split; [now apply ExactProofs.generate_lissajous_closed_form|]. split.
  - intros i j k Hi Hj E. rewrite !map_range_nth_error by assumption.
    f_equal. symmetry.
    apply (@lissajous_formula_shift a b c px py pz ax ay az steps i j k);
      [lia|exact E].
  - exists (lissajous_formula a b c px py pz ax ay az steps 0). split.
    + change O with (Z.to_nat 0). apply map_range_nth_error. lia.
    + rewrite ExactProofs.lissajous_point_OK by lia. f_equal.
      apply (@lissajous_formula_shift a b c px py pz ax ay az steps 0 steps
               (lissajous_period a b c)); lia.
Qed.

(** Over the reals every emitted Lissajous point lies in the box of the
    amplitudes: [|x| <= |amp_x|], [|y| <= |amp_y|], [|z| <= |amp_z|]. *)
Theorem lissajous_bounding_box (a b c : Z) (px py pz ax ay az : R) (steps : Z) :
  (0 < a)%Z -> (0 < b)%Z -> (0 < c)%Z ->
  exists pts : list (R * R * R),
    generate_lissajous a b c px py pz ax ay az steps = OK pts /\
    Forall (fun pt => let '(x, y, z) := pt in
                      Rabs x <= Rabs ax /\ Rabs y <= Rabs ay /\
                      Rabs z <= Rabs az) pts.
Proof.
  intros Ha Hb Hc. eexists.
  split; [now apply ExactProofs.generate_lissajous_closed_form|].
  apply Forall_map, Forall_forall. intros i _. unfold lissajous_formula.
  assert (Hbound : forall amp u, Rabs (amp * sin u) <= Rabs amp).
  { intros amp u. rewrite Rabs_mult.
    rewrite <- (Rmult_1_r (Rabs amp)) at 2.
    apply Rmult_le_compat_l; [apply Rabs_pos|].
    apply Rabs_le. apply SIN_bound. }
  repeat split; apply Hbound.
Qed.

(** Over the reals, a zero frequency (which only [main] rejects) collapses
    the curve: when some frequency is zero and both divisions of [lcm]
    succeed, the period is [0] and every emitted point is the first one. *)
Theorem lissajous_zero_frequency (a b c : Z) (px py pz ax ay az : R)
    (steps : Z) :
  ~ (a = 0 /\ b = 0)%Z -> (a = 0 \/ b = 0 -> c <> 0)%Z ->
  (a = 0 \/ b = 0 \/ c = 0)%Z ->
  generate_lissajous a b c px py pz ax ay az steps
  = OK (repeat (ax * sin px, ay * sin py, az * sin pz) (Z.to_nat steps)).
Proof.
  intros Hab Hc Hz.
  assert (Hl : (Z.lcm a b = 0 <-> a = 0 \/ b = 0)%Z) by apply Z.lcm_eq_0.
  assert (Hc' : ~ (Z.lcm a b = 0 /\ c = 0)%Z) by tauto.
  assert (Hp : lissajous_period a b c = 0%Z).
  { rewrite lissajous_period_lcm by assumption. apply Z.lcm_eq_0. tauto. }
  rewrite generate_lissajous_index_form.
  assert (Ht : lissajous_t_max a b c = OK (2 * PI * IZR 0)).
  { rewrite <- Hp. unfold lissajous_t_max, lissajous_period, euclid_lcm.
    rewrite lcm_OK by now rewrite gcd_zero_iff.
    rewrite bind_OK, lcm_OK.
    - rewrite bind_OK. cbn [of_int RArith bind].
      now rewrite ExactProofs.lit_int.
    - rewrite gcd_zero_iff.
      rewrite (@lcm_is_Zlcm a b) by now rewrite gcd_zero_iff.
      exact Hc'. }
  rewrite Ht, bind_OK.
  rewrite (mapM_total _ (fun _ => (ax * sin px, ay * sin py, az * sin pz))).
  - f_equal. rewrite <- (range_length steps).
    induction (range steps) as [|i l IH]; [reflexivity|].
    simpl. now rewrite IH.
  - intros i Hi. apply range_In in Hi. unfold lissajous_point.
    rewrite ExactProofs.int_truediv_OK by lia.
    cbn [bind of_int math_sin add mul RArith].
    now rewrite !Rmult_0_r, !Rplus_0_l.
Qed.

(** Over the reals, multiplying the step count by [m] keeps every sample:
    the point of index [m*i] of the finer run is the point of index [i]. *)
Theorem lissajous_refines (a b c : Z) (px py pz ax ay az : R)
    (steps m : Z) :
  (0 < a)%Z -> (0 < b)%Z -> (0 < c)%Z -> (0 < steps)%Z -> (0 < m)%Z ->
  exists coarse fine : list (R * R * R),
    generate_lissajous a b c px py pz ax ay az steps = OK coarse /\
    generate_lissajous a b c px py pz ax ay az (m * steps) = OK fine /\
    forall i : Z, (0 <= i < steps)%Z ->
      nth_error fine (Z.to_nat (m * i)) = nth_error coarse (Z.to_nat i).
Proof.
  intros Ha Hb Hc Hs Hm. do 2 eexists.
  split; [now apply ExactProofs.generate_lissajous_closed_form|].
  split; [now apply ExactProofs.generate_lissajous_closed_form|].
  intros i Hi. rewrite !map_range_nth_error by nia.
  f_equal. unfold lissajous_formula. rewrite !mult_IZR.
  assert (IZR m <> 0) by (apply not_0_IZR; lia).
  assert (IZR steps <> 0) by (apply not_0_IZR; lia).
  replace (IZR m * IZR i / (IZR m * IZR steps)) with (IZR i / IZR steps)
    by (field; split; assumption).
  reflexivity.
Qed.

End ExactCurves.

(** ** The torus knot and the spiral over the reals *)

Module ExactSurfaces.

Import Exact ExactForms.
#[local] Open Scope R_scope.

Lemma torus_formula_shift (p q : Z) (R0 r : R) (steps i j k : Z) :
  (steps <> 0)%Z -> ((j - i) * Z.max p q = k * steps)%Z ->
  torus_formula p q R0 r steps j = torus_formula p q R0 r steps i.
Proof.
  intros Hs E. unfold torus_formula, torus_t.
  rewrite (@ExactCurves.sample_shift (Z.max p q) steps i j k Hs E).
  set (t := IZR i / IZR steps * (2 * PI * IZR (Z.max p q))).
  replace (IZR p * (t + 2 * IZR k * PI))
    with (IZR p * t + 2 * IZR (p * k) * PI) by (rewrite mult_IZR; ring).
  replace (IZR q * (t + 2 * IZR k * PI))
    with (IZR q * t + 2 * IZR (q * k) * PI) by (rewrite mult_IZR; ring).
  now rewrite !ExactCurves.sin_period_Z, !ExactCurves.cos_period_Z.
Qed.

(** Over the reals the torus knot starts at [(R + r, 0, 0)] and closes for
    all integer winding numbers: the point the loop would compute at index
    [steps] is the first point, and two emitted points coincide whenever
    [(j - i) * max(p, q) = k * steps]. *)
Theorem torus_knot_closes (p q : Z) (R0 r : R) (steps : Z) :
  (0 < steps)%Z ->
  exists pts : list (R * R * R),
    generate_torus_knot p q R0 r steps = OK pts /\
    nth_error pts 0 = Some (R0 + r, 0, 0) /\
    torus_point p q R0 r steps (2 * PI * IZR (Z.max p q)) steps
    = OK (R0 + r, 0, 0) /\
    forall i j k : Z,
      (0 <= i < steps)%Z -> (0 <= j < steps)%Z ->
      ((j - i) * Z.max p q = k * steps)%Z ->
      nth_error pts (Z.to_nat i) = nth_error pts (Z.to_nat j).
Proof.
  intros Hs.
  assert (H0 : torus_formula p q R0 r steps 0 = (R0 + r, 0, 0)).
  { unfold torus_formula, torus_t, Rdiv.
    rewrite !Rmult_0_l, !Rmult_0_r, cos_0, sin_0.
    f_equal; [f_equal|]; ring. }
  eexists. split; [apply ExactProofs.generate_torus_knot_closed_form|].
  split; [|split].
  - change O with (Z.to_nat 0). rewrite map_range_nth_error by lia.
    now rewrite H0.
  - rewrite ExactProofs.torus_point_OK by lia. f_equal. rewrite <- H0.
    apply (@torus_formula_shift p q R0 r steps 0 steps (Z.max p q)); lia.
  - intros i j k Hi Hj E. rewrite !map_range_nth_error by assumption.
    f_equal. symmetry.
    apply (@torus_formula_shift p q R0 r steps i j k); [lia|exact E].
Qed.

(** Over the reals every emitted torus-knot point lies on the torus of major
    radius [R] and minor radius [r] about the z axis,
    [(x^2 + y^2 + z^2 + R^2 - r^2)^2 = 4 R^2 (x^2 + y^2)], with
    [|z| <= |r|]. *)
Theorem torus_knot_on_torus (p q : Z) (R0 r : R) (steps : Z) :
  exists pts : list (R * R * R),
    generate_torus_knot p q R0 r steps = OK pts /\
    Forall (fun pt => let '(x, y, z) := pt in
                      (x ^ 2 + y ^ 2 + z ^ 2 + R0 ^ 2 - r ^ 2) ^ 2
                      = 4 * R0 ^ 2 * (x ^ 2 + y ^ 2) /\
                      Rabs z <= Rabs r) pts.
Proof.
  eexists. split; [apply ExactProofs.generate_torus_knot_closed_form|].
  apply Forall_map, Forall_forall. intros i _. unfold torus_formula.
  set (t := torus_t p q steps i).
  pose proof (sin2_cos2 (IZR q * t)) as Hq.
  pose proof (sin2_cos2 (IZR p * t)) as Hp.
  unfold Rsqr in Hq, Hp.
  set (cp := cos (IZR p * t)) in *. set (sp := sin (IZR p * t)) in *.
  set (cq := cos (IZR q * t)) in *. set (sq := sin (IZR q * t)) in *.
  split.
  - assert (Hxy : ((R0 + r * cp) * cq) ^ 2 + ((R0 + r * cp) * sq) ^ 2
                  = (R0 + r * cp) ^ 2).
    { replace (((R0 + r * cp) * cq) ^ 2 + ((R0 + r * cp) * sq) ^ 2)
        with ((R0 + r * cp) ^ 2 * (sq * sq + cq * cq)) by ring.
      rewrite Hq. ring. }
    rewrite Hxy.
    replace ((R0 + r * cp) ^ 2 + (r * sp) ^ 2 + R0 ^ 2 - r ^ 2)
      with (2 * R0 * (R0 + r * cp) + r ^ 2 * (sp * sp + cp * cp - 1))
      by ring.
    rewrite Hp. ring.
  - rewrite Rabs_mult. rewrite <- (Rmult_1_r (Rabs r)) at 2.
    apply Rmult_le_compat_l; [apply Rabs_pos|].
    apply Rabs_le. apply SIN_bound.
Qed.

(** Over the reals the spiral starts at the south pole [(0, -radius, 0)],
    its [y] grows by [2*radius/steps] per point and so strictly increases
    with the index, and the last point has [y = radius - 2*radius/steps]. *)
Theorem spiral_from_pole (steps : Z) (radius turns : R) :
  (0 < steps)%Z -> 0 < radius ->
  exists pts : list (R * R * R),
    spiral steps radius turns = OK pts /\
    nth_error pts 0 = Some (0, - radius, 0) /\
    (forall (k k' : nat) (x y z x' y' z' : R),
        nth_error pts k = Some (x, y, z) ->
        nth_error pts k' = Some (x', y', z') ->
        (k' = S k -> y' = y + 2 * radius / IZR steps) /\
        ((k < k')%nat -> y < y')) /\
    (exists x z : R,
        nth_error pts (Z.to_nat (steps - 1))
        = Some (x, radius - 2 * radius / IZR steps, z)).
Proof.
  intros Hs Hr.
  assert (Hpos : 0 < IZR steps) by now apply IZR_lt.
  assert (Hstep : 0 < 2 * radius / IZR steps).
  { apply Rdiv_lt_0_compat; lra. }
  assert (Hnth : forall k p,
             nth_error (map (spiral_formula steps radius turns)
                          (seq 0 (Z.to_nat steps))) k = Some p ->
             p = spiral_formula steps radius turns k).
  { intros k p E. rewrite nth_error_map, nth_error_seq in E.
    destruct (Nat.ltb_spec k (Z.to_nat steps)); [|discriminate].
    simpl in E. now injection E as <-. }
  eexists. split; [now apply ExactSpiral.spiral_exact_closed_form|].
  split; [|split].
  - rewrite nth_error_map, nth_error_seq.
    destruct (Nat.ltb_spec 0 (Z.to_nat steps)); [|lia].
    simpl. unfold spiral_formula, Rdiv. simpl INR.
    rewrite !Rmult_0_l, !Rplus_0_r, cos_0.
    replace (radius * radius - - radius * - radius) with 0 by ring.
    rewrite sqrt_0. do 2 f_equal; [f_equal|]; ring.
  - intros k k' x y z x' y' z' E E'.
    apply Hnth in E, E'. unfold spiral_formula in E, E'.
    injection E as _ -> _. injection E' as _ -> _. split.
    + intros ->. rewrite S_INR. ring.
    + intros Hlt. apply Rplus_lt_compat_l, Rmult_lt_compat_r;
        [exact Hstep|]. now apply lt_INR.
  - rewrite nth_error_map, nth_error_seq.
    destruct (Nat.ltb_spec (Z.to_nat (steps - 1)) (Z.to_nat steps)); [|lia].
    simpl. unfold spiral_formula. do 2 eexists. do 2 f_equal.
    f_equal. rewrite INR_IZR_INZ, Z2Nat.id, minus_IZR by lia.
    field. lra.
Qed.

End ExactSurfaces.

(** ** lorenz_attractor: earlier points do not depend on later steps *)

Section LorenzPrefix.

Context {F : Type} `{Arith F}.

(** In every arithmetic, asking [lorenz_attractor] for [m] more steps only
    appends points: the first [n] points of the longer run are the run of
    [n] steps. *)
Theorem lorenz_prefix (n m : Z) (dt : F) :
  0 <= m ->
  firstn (Z.to_nat n) (lorenz_attractor (n + m) dt) = lorenz_attractor n dt.
Proof.
  intros Hm. rewrite !lorenz_closed_form.
  destruct (Z_lt_le_dec n 0) as [Hn|Hn].
  - replace (Z.to_nat n) with O by lia. reflexivity.
  - rewrite Z2Nat.inj_add, seq_app, map_app, firstn_app by lia.
    rewrite length_map, length_seq, Nat.sub_diag, app_nil_r.
    apply firstn_all2. now rewrite length_map, length_seq.
Qed.

End LorenzPrefix.

(** ** binary64: what the scripts cannot raise, and exact values *)

Module Binary64Runs.

Import Binary64 Binary64Forms.
#[local] Open Scope float_scope.

Lemma bind_not_raise {A B : Type} (e : exn) (r : result A)
    (k : A -> result B) :
  r <> Raise e -> (forall a, r = OK a -> k a <> Raise e) ->
  bind r k <> Raise e.
Proof.
  intros Hr Hk. destruct r as [a|e']; simpl.
  - now apply Hk.
  - intros [= ->]. now apply Hr.
Qed.

Lemma mapM_not_raise {A B : Type} (e : exn) (f : A -> result B)
    (xs : list A) :
  (forall x, In x xs -> f x <> Raise e) -> mapM f xs <> Raise e.
Proof.
  induction xs as [|x xs IH]; intros Hf; simpl; [discriminate|].
  apply bind_not_raise; [apply Hf; now left|]. intros y _.
  apply bind_not_raise; [apply IH; intros z Hz; apply Hf; now right|].
  discriminate.
Qed.

Lemma float_of_int_no_zero_division (z : Z) :
  float_of_int z <> Raise ZeroDivisionError.
Proof. unfold float_of_int. destruct (is_infinity _); discriminate. Qed.

Lemma float_int_truediv_no_zero_division (i n : Z) :
  n <> 0%Z -> float_int_truediv i n <> Raise ZeroDivisionError.
Proof.
  intros Hn. unfold float_int_truediv.
  destruct (Z.eqb_spec n 0); [contradiction|].
  destruct (is_infinity _); discriminate.
Qed.

Lemma math_1_no_zero_division (func : float -> float) (x : float) :
  math_1 func x <> Raise ZeroDivisionError.
Proof.
  unfold math_1. destruct (_ && _); [discriminate|].
  destruct (_ && _); discriminate.
Qed.

(** A [float] that is neither a NaN nor infinite is a zero or a finite
    number. *)
Lemma is_finite_inv (v : float) :
  is_finite v = true ->
  (exists s, Prim2SF v = S754_zero s) \/
  (exists s m e, Prim2SF v = S754_finite s m e).
Proof.
  unfold is_finite, is_nan, is_infinity.
  rewrite !FloatAxioms.eqb_spec, FloatAxioms.abs_spec.
  change (Prim2SF infinity) with (S754_infinity false).
  destruct (Prim2SF v) as [s|s| |s m e]; intros Hv.
  - left. now exists s.
  - destruct s; discriminate.
  - discriminate.
  - right. now exists s, m, e.
Qed.

Lemma sub_diag_finite (v : float) : is_finite v = true -> v - v = 0.
Proof.
  intros Hv. apply (Binary64Proofs.float_of_spec (v - v) (s := S754_zero false)).
  rewrite FloatAxioms.sub_spec. unfold SF64sub, SFsub.
  destruct (is_finite_inv v Hv) as [[s ->]|(s & m & e & ->)].
  - destruct s; reflexivity.
  - now rewrite Z.sub_diag.
Qed.

Lemma mul_opp_opp (r : float) : (- r) * (- r) = r * r.
Proof.
  apply Prim2SF_inj. rewrite !FloatAxioms.mul_spec, FloatAxioms.opp_spec.
  unfold SF64mul, SFmul, SFopp.
  destruct (Prim2SF r) as [s|s| |s m e]; try reflexivity;
    destruct s; reflexivity.
Qed.

Lemma mul_zero_finite (c : float) : is_finite c = true -> (c * 0 =? 0) = true.
Proof.
  intros Hc. rewrite FloatAxioms.eqb_spec, FloatAxioms.mul_spec.
  change (Prim2SF 0) with (S754_zero false). unfold SF64mul, SFmul.
  destruct (is_finite_inv c Hc) as [[s ->]|(s & m & e & ->)];
    destruct s; reflexivity.
Qed.

(** What [math_1] returns for a finite argument is finite. *)
Lemma math_1_finite (func : float -> float) (x r : float) :
  is_finite x = true -> math_1 func x = OK r -> is_finite r = true.
Proof.
  intros Hx. unfold math_1.
  assert (Hn : is_nan x = false).
  { unfold is_finite in Hx. destruct (is_nan x); [discriminate|reflexivity]. }
  rewrite Hn, Hx. cbn [negb]. rewrite !andb_true_r.
  destruct (is_nan (func x)) eqn:E1; [discriminate|].
  destruct (is_infinity (func x)) eqn:E2; [discriminate|].
  intros [= <-]. unfold is_finite. now rewrite E1, E2.
Qed.

Section WithLibm.

Variable L : Libm.

Let A : Arith float := FArith L.
#[local] Existing Instance A.

(** With [dt = 0] the state never moves: every emitted point is
    [(1.0, 0.0, 0.0)]. *)
Theorem lorenz_zero_dt (steps : Z) :
  lorenz_attractor steps 0 = repeat (1, 0, 0) (Z.to_nat steps).
Proof.
  rewrite lorenz_closed_form.
  assert (Hfix : forall k, lorenz_trajectory 0 k = lorenz_start).
  { intros k. unfold A. rewrite Binary64Proofs.lorenz_trajectory_float.
    induction k as [|k IH]; [reflexivity|].
    now rewrite Nat.iter_succ, IH. }
  generalize 0%nat. induction (Z.to_nat steps) as [|n IH]; intros k.
  - reflexivity.
  - cbn [seq map repeat]. rewrite Hfix, IH. reflexivity.
Qed.

Lemma lissajous_point_no_zero_division (a b c : Z)
    (px py pz ax ay az : float) (steps : Z) (t_max : float) (i : Z) :
  steps <> 0%Z ->
  lissajous_point a b c px py pz ax ay az steps t_max i
  <> Raise ZeroDivisionError.
Proof.
  intros Hs. unfold lissajous_point.
  apply bind_not_raise;
    [now apply float_int_truediv_no_zero_division|intros d _].
  repeat (apply bind_not_raise;
          [first [apply float_of_int_no_zero_division
                 |apply math_1_no_zero_division]|intros ? _]).
  discriminate.
Qed.

Lemma torus_point_no_zero_division (p q : Z) (R0 r : float) (steps : Z)
    (t_max : float) (i : Z) :
  steps <> 0%Z ->
  torus_point p q R0 r steps t_max i <> Raise ZeroDivisionError.
Proof.
  intros Hs. unfold torus_point.
  apply bind_not_raise;
    [now apply float_int_truediv_no_zero_division|intros d _].
  repeat (apply bind_not_raise;
          [first [apply float_of_int_no_zero_division
                 |apply math_1_no_zero_division]|intros ? _]).
  discriminate.
Qed.

Lemma generate_torus_knot_no_zero_division (p q : Z) (R0 r : float)
    (steps : Z) :
  generate_torus_knot p q R0 r steps <> Raise ZeroDivisionError.
Proof.
  rewrite generate_torus_knot_index_form.
  apply bind_not_raise.
  - unfold torus_t_max. apply bind_not_raise;
      [apply float_of_int_no_zero_division|discriminate].
  - intros t_max _. apply mapM_not_raise. intros i Hi.
    apply range_In in Hi. apply torus_point_no_zero_division. lia.
Qed.

Lemma generate_lissajous_no_zero_division (a b c : Z)
    (px py pz ax ay az : float) (steps : Z) :
  (0 < a)%Z -> (0 < b)%Z -> (0 < c)%Z ->
  generate_lissajous a b c px py pz ax ay az steps
  <> Raise ZeroDivisionError.
Proof.
  intros Ha Hb Hc. rewrite generate_lissajous_index_form.
  apply bind_not_raise.
  - unfold lissajous_t_max.
    rewrite lcm_OK by (rewrite gcd_zero_iff; lia).
    rewrite bind_OK, lcm_OK by (rewrite gcd_zero_iff; lia).
    rewrite bind_OK. apply bind_not_raise;
      [apply float_of_int_no_zero_division|discriminate].
  - intros t_max _. apply mapM_not_raise. intros i Hi.
    apply range_In in Hi. apply lissajous_point_no_zero_division. lia.
Qed.

(** In binary64, neither generate_lissajous.py nor generate_torus_knot.py
    can end in an uncaught [ZeroDivisionError], whatever the command line:
    the check of the frequencies keeps [lcm] away from a zero gcd, and the
    division [i / steps] only runs for [steps >= 1].  Called directly,
    [generate_torus_knot] never raises [ZeroDivisionError] either. *)
Theorem scripts_no_zero_division :
  (forall args : lissajous_args float,
      lissajous_main args <> Uncaught ZeroDivisionError) /\
  (forall args : torus_args float,
      torus_knot_main args <> Uncaught ZeroDivisionError) /\
  (forall (p q : Z) (R0 r : float) (steps : Z),
      generate_torus_knot p q R0 r steps <> Raise ZeroDivisionError).
Proof.
  split; [|split].
  - intros args. unfold lissajous_main.
    destruct (match la_amp args with Some _ => _ | None => _ end)
      as [[amp_x amp_y] amp_z].
    destruct ((la_a args <=? 0)%Z || (la_b args <=? 0)%Z
              || (la_c args <=? 0)%Z) eqn:Hv; [discriminate|].
    rewrite !orb_false_iff, !Z.leb_gt in Hv. destruct Hv as [[Ha Hb] Hc].
    pose proof (@generate_lissajous_no_zero_division (la_a args) (la_b args)
                  (la_c args) (la_phase_x args) (la_phase_y args)
                  (la_phase_z args) amp_x amp_y amp_z (la_steps args)
                  Ha Hb Hc) as Hg.
    destruct (generate_lissajous _ _ _ _ _ _ _ _ _ _) as [pts|e];
      simpl; [discriminate|].
    intros [= ->]. now apply Hg.
  - intros args. unfold torus_knot_main.
    destruct ((ta_p args <=? 0)%Z || (ta_q args <=? 0)%Z); [discriminate|].
    pose proof (generate_torus_knot_no_zero_division (ta_p args) (ta_q args)
                  (ta_R args) (ta_r args) (ta_steps args)) as Hg.
    destruct (generate_torus_knot _ _ _ _ _) as [pts|e];
      simpl; [discriminate|].
    intros [= ->]. now apply Hg.
  - apply generate_torus_knot_no_zero_division.
Qed.

Lemma math_1_OK_finite (func : float -> float) (x : float) :
  is_finite (func x) = true -> math_1 func x = OK (func x).
Proof.
  unfold math_1, is_finite. intros Hf.
  destruct (is_nan (func x)); [discriminate|].
  destruct (is_infinity (func x)); [discriminate|]. reflexivity.
Qed.

Lemma spiral_point_pole (radius y_step turn_angle_step : float) :
  is_finite (radius * radius) = true ->
  spiral_point radius y_step turn_angle_step 0
  = (c <- math_cos 0 ;; s <- math_sin 0 ;; OK (c * 0, - radius, s * 0)).
Proof.
  intros Hfin. unfold spiral_point.
  change (spiral_sqrt_arg radius y_step 0)
    with (radius * radius - (- radius) * (- radius)).
  rewrite mul_opp_opp, sub_diag_finite by exact Hfin.
  reflexivity.
Qed.

(** In binary64, when [radius * radius] does not overflow, the first point
    of [spiral] is exactly the south pole: the first step yields
    [(cos(0)*0, -radius, sin(0)*0)] as soon as the C library's [cos] and
    [sin] are finite at [0], and whenever [spiral] returns, its first point
    has [y = -radius] and zeros for [x] and [z]. *)
Theorem spiral_first_point_pole (steps : Z) (radius turns : float) :
  (0 < steps)%Z -> is_finite (radius * radius) = true ->
  (forall y_step turn_angle_step : float,
      is_finite (libm_cos L 0) = true -> is_finite (libm_sin L 0) = true ->
      spiral_point radius y_step turn_angle_step 0
      = OK (libm_cos L 0 * 0, - radius, libm_sin L 0 * 0)) /\
  (forall pts : list (float * float * float),
      spiral steps radius turns = OK pts ->
      exists x z : float,
        nth_error pts 0 = Some (x, - radius, z) /\
        (x =? 0) = true /\ (z =? 0) = true).
Proof.
  intros Hs Hfin. split.
  - intros y_step turn_angle_step Hc Hsn.
    rewrite spiral_point_pole by exact Hfin.
    change (math_cos 0) with (math_1 (libm_cos L) 0).
    change (math_sin 0) with (math_1 (libm_sin L) 0).
    now rewrite !math_1_OK_finite by assumption.
  - intros pts E. rewrite (spiral_closed_form (F:=float)) in E.
    destruct (of_int steps) as [fsteps|e]; [|discriminate].
    rewrite !bind_OK in E.
    destruct (truediv _ fsteps) as [y_step|e]; [|discriminate].
    rewrite !bind_OK in E.
    destruct (truediv _ fsteps) as [turn_angle_step|e]; [|discriminate].
    rewrite !bind_OK in E.
    destruct (Z.to_nat steps) as [|n] eqn:En; [lia|].
    cbn [seq mapM] in E. rewrite spiral_point_pole in E by exact Hfin.
    destruct (math_cos 0) as [c|e] eqn:Ec; [|discriminate].
    destruct (math_sin 0) as [s|e] eqn:Esn; [|discriminate].
    rewrite !bind_OK in E.
    destruct (mapM _ (seq 1 n)) as [rest|e]; [|discriminate].
    rewrite !bind_OK in E. injection E as <-.
    exists (c * 0), (s * 0). split; [reflexivity|].
    split; apply mul_zero_finite.
    + now apply (math_1_finite (libm_cos L) 0).
    + now apply (math_1_finite (libm_sin L) 0).
Qed.

End WithLibm.

End Binary64Runs.

(** ** The scripts over the reals *)

Module ExactScripts.

Import Exact ExactForms.
#[local] Open Scope R_scope.


End ExactScripts.

(** ** The further properties at concrete inputs *)

Module ConcreteRuns.

Import Exact ExactForms Binary64 Binary64Forms.

Lemma lcm_least_common_multiple_witness :
  ~ (4 = 0 /\ 6 = 0) /\
  exists l : Z,
    lcm 4 6 = OK l /\ 0 <= l /\ (4 | l) /\ (6 | l) /\
    forall m : Z, (4 | m) -> (6 | m) -> (l | m).
Proof.
  split; [lia|]. apply (@lcm_least_common_multiple 4 6). lia.
Defined.

(** The default run: 25000 steps over 60 turns of the 3:4:5 curve, so the
    points repeat every 1250 indices. *)
Lemma lissajous_retraces_witness :
  0 < 3 /\ 0 < 4 /\ 0 < 5 /\ 0 < 25000 /\
  exists pts : list (R * R * R),
    generate_lissajous 3 4 5 0%R (PI / 2)%R 0%R 100%R 100%R 100%R 25000
    = OK pts /\
    nth_error pts (Z.to_nat 0) = nth_error pts (Z.to_nat 1250).
Proof.
  do 4 (split; [lia|]).
  destruct (@ExactCurves.lissajous_retraces 3 4 5 0%R (PI / 2)%R 0%R
              100%R 100%R 100%R 25000) as (pts & E & Hrep & _); try lia.
  exists pts. split; [exact E|].
  apply (Hrep 0 1250 3); [lia|lia|reflexivity].
Defined.

Lemma lissajous_bounding_box_witness :
  0 < 3 /\ 0 < 4 /\ 0 < 5 /\
  exists pts : list (R * R * R),
    generate_lissajous 3 4 5 0%R (PI / 2)%R 0%R 100%R 100%R 100%R 4 = OK pts /\
    Forall (fun pt => let '(x, y, z) := pt in
                      (Rabs x <= Rabs 100 /\ Rabs y <= Rabs 100 /\
                       Rabs z <= Rabs 100)%R) pts.
Proof.
  do 3 (split; [lia|]).
  apply (@ExactCurves.lissajous_bounding_box 3 4 5 0%R (PI / 2)%R 0%R
           100%R 100%R 100%R 4); lia.
Defined.

Lemma lissajous_zero_frequency_witness :
  ~ (0 = 0 /\ 4 = 0) /\ (0 = 0 \/ 4 = 0 -> 5 <> 0) /\
  (0 = 0 \/ 4 = 0 \/ 5 = 0) /\
  generate_lissajous 0 4 5 0%R (PI / 2)%R 0%R 100%R 100%R 100%R 3
  = OK (repeat (100 * sin 0, 100 * sin (PI / 2), 100 * sin 0)%R
          (Z.to_nat 3)).
Proof.
  split; [lia|]. split; [lia|]. split; [lia|].
  apply (@ExactCurves.lissajous_zero_frequency 0 4 5 0%R (PI / 2)%R 0%R
           100%R 100%R 100%R 3); lia.
Defined.

Lemma lissajous_refines_witness :
  0 < 3 /\ 0 < 4 /\ 0 < 5 /\ 0 < 100 /\ 0 < 2 /\
  exists coarse fine : list (R * R * R),
    generate_lissajous 3 4 5 0%R (PI / 2)%R 0%R 100%R 100%R 100%R 100
    = OK coarse /\
    generate_lissajous 3 4 5 0%R (PI / 2)%R 0%R 100%R 100%R 100%R (2 * 100)
    = OK fine /\
    nth_error fine (Z.to_nat (2 * 7)) = nth_error coarse (Z.to_nat 7).
Proof.
  do 5 (split; [lia|]).
  destruct (@ExactCurves.lissajous_refines 3 4 5 0%R (PI / 2)%R 0%R
              100%R 100%R 100%R 100 2) as (coarse & fine & E1 & E2 & Href);
    try lia.
  exists coarse, fine. repeat split; try assumption. apply Href. lia.
Defined.

Lemma torus_knot_closes_witness :
  0 < 4 /\
  exists pts : list (R * R * R),
    generate_torus_knot 3 2 100%R 50%R 4 = OK pts /\
    nth_error pts 0 = Some (100 + 50, 0, 0)%R.
Proof.
  split; [lia|].
  destruct (@ExactSurfaces.torus_knot_closes 3 2 100%R 50%R 4)
    as (pts & E & Hfirst & _); [lia|].
  exists pts. split; assumption.
Defined.

Lemma spiral_from_pole_witness :
  0 < 25000 /\ (0 < 200)%R /\
  exists pts : list (R * R * R),
    spiral 25000 200%R 30%R = OK pts /\
    nth_error pts 0 = Some (0, - 200, 0)%R.
Proof.
  split; [lia|]. split; [lra|].
  destruct (@ExactSurfaces.spiral_from_pole 25000 200%R 30%R)
    as (pts & E & Hfirst & _); [lia|lra|].
  exists pts. split; assumption.
Defined.

Lemma lorenz_prefix_witness :
  0 <= 3 /\
  forall L : Libm,
    firstn (Z.to_nat 2)
      (@lorenz_attractor float (FArith L) (2 + 3) 0x1.47ae147ae147bp-7%float)
    = @lorenz_attractor float (FArith L) 2 0x1.47ae147ae147bp-7%float.
Proof.
  split; [lia|]. intros L.
  apply (@lorenz_prefix float (FArith L) 2 3). lia.
Defined.

(** One step of radius 200 with a C library whose [cos] and [sin] return
    [1] and [0], their values at the angle [0] of the first point. *)
Lemma spiral_first_point_pole_witness :
  let L := {| libm_sin := fun _ => 0%float; libm_cos := fun _ => 1%float |} in
  0 < 1 /\ is_finite (200 * 200)%float = true /\
  @spiral float (FArith L) 1 200%float 30%float
  = OK [(0, -200, 0)%float] /\
  exists x z : float,
    nth_error [(0, -200, 0)%float] 0 = Some (x, (- 200)%float, z) /\
    (x =? 0)%float = true /\ (z =? 0)%float = true.
Proof.
  intros L.
  assert (H1 : 0 < 1) by lia.
  assert (H2 : is_finite (200 * 200)%float = true) by reflexivity.
  assert (H3 : @spiral float (FArith L) 1 200%float 30%float
               = OK [(0, -200, 0)%float]) by reflexivity.
  split; [exact H1|]. split; [exact H2|]. split; [exact H3|].
  exact (proj2 (@Binary64Runs.spiral_first_point_pole L 1 200%float 30%float
                  H1 H2) [(0, -200, 0)%float] H3).
Defined.

End ConcreteRuns.
